(** * hashira: exact Lagrange reconstruction of f(0) over BigInt fractions

    A shallow embedding of [src/solve.js]:
    - JavaScript [BigInt] values are [Z]; [/] is truncating division
      ([Z.quot]), [%] is the remainder with the sign of the dividend
      ([Z.rem]); both throw a [RangeError] on a zero divisor.
    - [throw new Error(...)] is a value of [JsError] carried by [result].
    - strings are [string]s of 8-bit characters, read as the code units
      U+0000 .. U+00FF. *)

From Equations Require Import Equations.
From Stdlib Require Import ZArith QArith List Ascii String Bool Lia Arith Field.
From Stdlib Require Import Permutation Sorted DecimalString.
Import ListNotations.

Local Open Scope Z_scope.

(** ** Errors *)

(** The exceptions the program can raise.  The first four are the
    [Error] objects thrown by the source (with the data their messages are
    built from); the last is the engine's own error for a BigInt division
    or remainder by [0n]. *)
Inductive JsError : Type :=
| ZeroDenominator
| NonIntegerResult (num den : Z)
| InvalidDigit (ch : ascii)
| DigitOutOfRange (ch : ascii) (base : Z)
| RangeErrorDivisionByZero.

Inductive result (A : Type) : Type :=
| Ok (a : A)
| Err (e : JsError).
Arguments Ok {A} a.
Arguments Err {A} e.

Definition bind {A B : Type} (r : result A) (k : A -> result B) : result B :=
  match r with
  | Ok a => k a
  | Err e => Err e
  end.

Notation "x <- r ;; k" := (bind r (fun x => k))
  (at level 61, r at next level, right associativity).

(** ** BigInt primitives *)

(** [a / b] on BigInt. *)
Definition bigDiv (a b : Z) : result Z :=
  if b =? 0 then Err RangeErrorDivisionByZero else Ok (Z.quot a b).

(** [a % b] on BigInt. *)
Definition bigRem (a b : Z) : result Z :=
  if b =? 0 then Err RangeErrorDivisionByZero else Ok (Z.rem a b).

(** ** bigGcd (solve.js, lines 4-13) *)

(** The loop is a recursion on the second operand, whose absolute value
    strictly decreases.  The accessibility proof is produced lazily, so
    that the loop evaluates on integers of any size. *)
Definition absLt (u v : Z) : Prop := Z.abs u < Z.abs v.

Lemma absLt_wf : well_founded absLt.
Proof.
  apply (well_founded_lt_compat Z Z.abs_nat).
  unfold absLt. intros u v H. lia.
Qed.

#[local] Instance absLt_WellFounded : WellFounded absLt :=
  Acc_intro_generator 64 absLt_wf.
Opaque absLt_WellFounded.

(** The [while (b !== 0n)] loop, entered with [a] and [b] already made
    non-negative.  [a % b] is only evaluated under the guard [b !== 0n]. *)
Equations? bigGcd_loop (a b : Z) : Z by wf b absLt :=
  bigGcd_loop a b with Z.eq_dec b 0 := {
    | left _ => a
    | right _ => bigGcd_loop b (Z.rem a b) }.
Proof.
  unfold absLt.
  pose proof (Z.rem_bound_abs a b ltac:(assumption)). lia.
Qed.

Definition bigGcd (a b : Z) : Z :=
  let a := if a <? 0 then - a else a in
  let b := if b <? 0 then - b else b in
  bigGcd_loop a b.

(** ** Fraction (solve.js, lines 16-47) *)

Module Fraction.

Record t : Type := mk { n : Z; d : Z }.

(** [new Fraction(n, d)]. *)
Definition constructor (n0 d0 : Z) : result t :=
  if d0 =? 0 then Err ZeroDenominator
  else
    let '(n1, d1) := if d0 <? 0 then (- n0, - d0) else (n0, d0) in
    let g := bigGcd n1 d1 in
    qn <- bigDiv n1 g ;;
    qd <- bigDiv d1 g ;;
    Ok (mk qn qd).

Definition fromBigInt (x : Z) : result t := constructor x 1.

Definition add (this other : t) : result t :=
  let n0 := n this * d other + n other * d this in
  let d0 := d this * d other in
  constructor n0 d0.

Definition mul (this other : t) : result t :=
  let n0 := n this * n other in
  let d0 := d this * d other in
  constructor n0 d0.

Definition toBigIntExact (this : t) : result Z :=
  r <- bigRem (n this) (d this) ;;
  if negb (r =? 0) then Err (NonIntegerResult (n this) (d this))
  else bigDiv (n this) (d this).

End Fraction.

(** ** parseInBase (solve.js, lines 50-63) *)

Definition code (ch : ascii) : Z := Z.of_N (N_of_ascii ch).

(** The characters [String.prototype.trim] strips, among U+0000 .. U+00FF:
    TAB, LF, VT, FF, CR, SPACE and NO-BREAK SPACE. *)
Definition isWhiteSpace (ch : ascii) : bool :=
  let c := code ch in
  ((9 <=? c) && (c <=? 13)) || (c =? 32) || (c =? 160).

Fixpoint trimStart (s : list ascii) : list ascii :=
  match s with
  | [] => []
  | ch :: rest => if isWhiteSpace ch then trimStart rest else s
  end.

Definition trim (s : list ascii) : list ascii :=
  rev (trimStart (rev (trimStart s))).

(** [toLowerCase] on one character of U+0000 .. U+00FF: the letters A-Z and
    the Latin-1 capitals U+00C0 .. U+00DE (without the sign U+00D7) move
    up by 32. *)
Definition toLowerChar (ch : ascii) : ascii :=
  let c := code ch in
  if ((65 <=? c) && (c <=? 90))
     || ((192 <=? c) && (c <=? 222) && negb (c =? 215))
  then ascii_of_N (Z.to_N (c + 32))
  else ch.

Definition toLowerCase (s : list ascii) : list ascii := map toLowerChar s.

(** The three-way test at the head of the loop body. *)
Inductive CharClass : Type :=
| IsDigit (digit : Z)
| IsSpace
| IsInvalid.

Definition classify (ch : ascii) : CharClass :=
  let c := code ch in
  if (48 <=? c) && (c <=? 57) then IsDigit (c - 48)
  else if (97 <=? c) && (c <=? 122) then IsDigit (10 + c - 97)
  else if c =? 32 then IsSpace
  else IsInvalid.

(** The body of [for (const ch of ...)], from the characters still to read
    and the current [res]. *)
Fixpoint parseInBase_loop (base b : Z) (chars : list ascii) (res : Z)
  : result Z :=
  match chars with
  | [] => Ok res
  | ch :: rest =>
      match classify ch with
      | IsDigit digit =>
          if b <=? digit then Err (DigitOutOfRange ch base)
          else parseInBase_loop base b rest (res * b + digit)
      | IsSpace => parseInBase_loop base b rest res
      | IsInvalid => Err (InvalidDigit ch)
      end
  end.

(** [base] is an integral Number, so [BigInt(base)] is [base] itself. *)
Definition parseInBase (str : string) (base : Z) : result Z :=
  let b := base in
  parseInBase_loop base b
    (toLowerCase (trim (list_ascii_of_string str))) 0.

(** ** reconstructAtZero (solve.js, lines 78-103) *)

Module Point.
Record t : Type := mk { x : Z; y : Z }.
End Point.

(** [points.slice(0, k)] for an integral [k]: a negative [k] counts from
    the end of the array, and the end index is clamped to the array. *)
Definition slice0 {A : Type} (points : list A) (k : Z) : list A :=
  let len := Z.of_nat (List.length points) in
  let final := if k <? 0 then Z.max (len + k) 0 else Z.min k len in
  firstn (Z.to_nat final) points.

(** The inner [for (let j = 0; j < P.length; j++)] loop for a fixed [i]:
    [rest] holds [P[j]], [P[j+1]], ... *)
Fixpoint basisWeight_loop (i : nat) (xi : Z) (j : nat)
    (rest : list Point.t) (num den : Z) : result (Z * Z) :=
  match rest with
  | [] => Ok (num, den)
  | pj :: rest' =>
      if (j =? i)%nat then basisWeight_loop i xi (S j) rest' num den
      else
        let xj := Point.x pj in
        let num := num * - xj in
        let den := den * (xi - xj) in
        let g := bigGcd num den in
        if 1 <? g then
          num' <- bigDiv num g ;;
          den' <- bigDiv den g ;;
          basisWeight_loop i xi (S j) rest' num' den'
        else basisWeight_loop i xi (S j) rest' num den
  end.

(** The outer [for (let i = 0; i < P.length; i++)] loop: [rest] holds
    [P[i]], [P[i+1]], ... *)
Fixpoint reconstruct_loop (P : list Point.t) (i : nat)
    (rest : list Point.t) (sum : Fraction.t) : result Fraction.t :=
  match rest with
  | [] => Ok sum
  | pi :: rest' =>
      let xi := Point.x pi in
      let yi := Point.y pi in
      w <- basisWeight_loop i xi 0 P 1 1 ;;
      term <- Fraction.constructor (yi * fst w) (snd w) ;;
      sum' <- Fraction.add sum term ;;
      reconstruct_loop P (S i) rest' sum'
  end.

Definition reconstructAtZero (points : list Point.t) (k : Z) : result Z :=
  let P := slice0 points k in
  sum0 <- Fraction.fromBigInt 0 ;;
  sum <- reconstruct_loop P 0 P sum0 ;;
  Fraction.toBigIntExact sum.

(** *** The variant without the intermediate reduction

    The same algorithm with lines 92-97 (the gcd reduction of [num] and
    [den] inside the inner loop) removed. *)
Fixpoint basisWeight_loop_noReduce (i : nat) (xi : Z) (j : nat)
    (rest : list Point.t) (num den : Z) : result (Z * Z) :=
  match rest with
  | [] => Ok (num, den)
  | pj :: rest' =>
      if (j =? i)%nat then basisWeight_loop_noReduce i xi (S j) rest' num den
      else
        let xj := Point.x pj in
        let num := num * - xj in
        let den := den * (xi - xj) in
        basisWeight_loop_noReduce i xi (S j) rest' num den
  end.

Fixpoint reconstruct_loop_noReduce (P : list Point.t) (i : nat)
    (rest : list Point.t) (sum : Fraction.t) : result Fraction.t :=
  match rest with
  | [] => Ok sum
  | pi :: rest' =>
      let xi := Point.x pi in
      let yi := Point.y pi in
      w <- basisWeight_loop_noReduce i xi 0 P 1 1 ;;
      term <- Fraction.constructor (yi * fst w) (snd w) ;;
      sum' <- Fraction.add sum term ;;
      reconstruct_loop_noReduce P (S i) rest' sum'
  end.

Definition reconstructAtZero_noReduce (points : list Point.t) (k : Z)
  : result Z :=
  let P := slice0 points k in
  sum0 <- Fraction.fromBigInt 0 ;;
  sum <- reconstruct_loop_noReduce P 0 P sum0 ;;
  Fraction.toBigIntExact sum.

(** ** Predicates used by the statements *)

(** The Fraction invariant: positive denominator, lowest terms. *)
Definition normalized (f : Fraction.t) : Prop :=
  0 < Fraction.d f /\ Z.gcd (Z.abs (Fraction.n f)) (Fraction.d f) = 1.

(** The characters the loop of [parseInBase] runs over. *)
Definition prepared (str : string) : list ascii :=
  toLowerCase (trim (list_ascii_of_string str)).

(** The digit values of a character sequence, spaces and anything else that
    is not a digit left out. *)
Fixpoint digitsOf (chars : list ascii) : list Z :=
  match chars with
  | [] => []
  | ch :: rest =>
      match classify ch with
      | IsDigit digit => digit :: digitsOf rest
      | _ => digitsOf rest
      end
  end.

(** A character the loop gets past in base [b]: a space, or a digit of
    value below [b]. *)
Definition readableChar (b : Z) (ch : ascii) : bool :=
  match classify ch with
  | IsDigit digit => digit <? b
  | IsSpace => true
  | IsInvalid => false
  end.

Definition readable (b : Z) (chars : list ascii) : bool :=
  forallb (readableChar b) chars.

(** Positional notation, most significant digit first: the digits
    [d_1 ... d_m] stand for the sum of the [d_i * base ^ (m - i)]. *)
Fixpoint positional (base : Z) (digits : list Z) : Z :=
  match digits with
  | [] => 0
  | digit :: rest =>
      digit * base ^ Z.of_nat (List.length rest) + positional base rest
  end.

(** The product the inner loop accumulates when nothing is reduced: the
    [f (x_j)] for the indices [j], [j+1], ... of [rest] other than [i]. *)
Fixpoint skipProd (f : Z -> Z) (i j : nat) (rest : list Point.t) : Z :=
  match rest with
  | [] => 1
  | pj :: rest' =>
      if (j =? i)%nat then skipProd f i (S j) rest'
      else f (Point.x pj) * skipProd f i (S j) rest'
  end.

(** The numerator and denominator of the basis weight [w_i(t)] of
    Lagrange's formula over the points [P]; the program computes them at
    [t = 0]. *)
Definition basisNum (P : list Point.t) (i : nat) (t : Z) : Z :=
  skipProd (fun xj => t - xj) i 0 P.

Definition basisDen (P : list Point.t) (i : nat) (xi : Z) : Z :=
  skipProd (fun xj => xi - xj) i 0 P.

(** A polynomial with integer coefficients, constant term first, and its
    value at [t]. *)
Fixpoint polyEval (coeffs : list Z) (t : Z) : Z :=
  match coeffs with
  | [] => 0
  | c :: rest => c + t * polyEval rest t
  end.

(** The pairwise-distinct [x] of a point list. *)
Definition distinctX (P : list Point.t) : Prop := NoDup (map Point.x P).

(** *** Rational values and polynomials over the rationals *)

(** The rational number a Fraction stands for. *)
Definition Qval (f : Fraction.t) : Q :=
  (inject_Z (Fraction.n f) / inject_Z (Fraction.d f))%Q.

(** Lagrange's formula for the value at [t] of the interpolating
    polynomial, summed over the points [P[i]], [P[i+1]], ... of [rest]. *)
Fixpoint lagrangeSum (P : list Point.t) (t : Z) (i : nat)
    (rest : list Point.t) : Q :=
  match rest with
  | [] => 0%Q
  | p :: rest' =>
      (inject_Z (Point.y p * basisNum P i t)
         / inject_Z (basisDen P i (Point.x p))
       + lagrangeSum P t (S i) rest')%Q
  end.

(** Polynomials with rational coefficients, constant term first. *)
Fixpoint peval (c : list Q) (t : Q) : Q :=
  match c with
  | [] => 0%Q
  | a :: rest => (a + t * peval rest t)%Q
  end.

Fixpoint padd (c1 c2 : list Q) : list Q :=
  match c1, c2 with
  | [], _ => c2
  | _, [] => c1
  | a :: r1, b :: r2 => (a + b)%Q :: padd r1 r2
  end.

Definition pscale (a : Q) (c : list Q) : list Q := map (Qmult a) c.

(** [g] is, on the integers, a polynomial with fewer than [m + 1]
    coefficients. *)
Definition polyFun (m : nat) (g : Z -> Q) : Prop :=
  exists c : list Q,
    (List.length c <= m)%nat /\ forall t : Z, (g t == peval c (inject_Z t))%Q.

(** ** pointsFromJson and main (solve.js, lines 66-75 and 106-131) *)

(** The object [JSON.parse] returns, for input of the expected shape: the
    property ["keys"] holds the integers [n] and [k], every other property
    holds a [base] and a [value] string.  [shares] lists those other
    properties as [Object.entries] yields them, that is what the filter
    [key !== "keys"] leaves. *)
Module Keys.
Record t : Type := mk { n : Z; k : Z }.
End Keys.

Module Share.
Record t : Type := mk { base : string; value : string }.
End Share.

Record JsonObject : Type := mkJsonObject {
  keys : Keys.t;
  shares : list (string * Share.t)
}.

(** What can be thrown while the points are built and used: the engine's
    [SyntaxError] for a key that [BigInt] cannot read, its [RangeError]
    for a base that is not an integer, and the errors of the core. *)
Inductive Thrown : Type :=
| SyntaxErrorBigInt (key : string)
| RangeErrorBigInt (base : string)
| CoreError (e : JsError).

Inductive run (A : Type) : Type :=
| Returned (a : A)
| Threw (t : Thrown).
Arguments Returned {A} a.
Arguments Threw {A} t.

(** [entries.sort(...)] with the comparator on [x]: the sort is stable and
    the comparator a total preorder, so the outcome is the stable sort by
    ascending [x], computed here by insertion. *)
Fixpoint insertByX (p : Point.t) (sorted : list Point.t) : list Point.t :=
  match sorted with
  | [] => [p]
  | q :: rest =>
      if Point.x p <=? Point.x q then p :: q :: rest
      else q :: insertByX p rest
  end.

Definition sortByX (entries : list Point.t) : list Point.t :=
  fold_right insertByX [] entries.

(** Decimal rendering of an integer, as [toString] and template literals
    give it for a BigInt and for an integral Number below [1e21]. *)
Definition showInteger (z : Z) : string := NilZero.string_of_int (Z.to_int z).

Inductive Console : Type :=
| Stdout (line : string)
| Stderr (line : string).

Section Ingestion.

(** The two conversions of the engine that the builder relies on:
    [BigInt(key)] on a property name ([None]: it throws a [SyntaxError]),
    and [Number(val.base)] followed by the [BigInt(base)] of
    [parseInBase] ([None]: the number is not an integer and [BigInt]
    throws a [RangeError]). *)
Variable BigInt_string : string -> option Z.
Variable Number_string : string -> option Z.

(** The callback of [map]: one entry to one point. *)
Definition decodeEntry (entry : string * Share.t) : run Point.t :=
  let (key, val) := entry in
  match BigInt_string key with
  | None => Threw (SyntaxErrorBigInt key)
  | Some x =>
      match Number_string (Share.base val) with
      | None => Threw (RangeErrorBigInt (Share.base val))
      | Some b =>
          match parseInBase (Share.value val) b with
          | Ok y => Returned (Point.mk x y)
          | Err e => Threw (CoreError e)
          end
      end
  end.

(** [Array.prototype.map] with a callback that may throw: left to right,
    the first exception ends it. *)
Fixpoint decodeEntries (entries : list (string * Share.t))
  : run (list Point.t) :=
  match entries with
  | [] => Returned []
  | entry :: rest =>
      match decodeEntry entry with
      | Threw t => Threw t
      | Returned p =>
          match decodeEntries rest with
          | Threw t => Threw t
          | Returned ps => Returned (p :: ps)
          end
      end
  end.

(** Returns [{ k, points }] as the pair [(k, points)]. *)
Definition pointsFromJson (obj : JsonObject) : run (Z * list Point.t) :=
  match decodeEntries (shares obj) with
  | Threw t => Threw t
  | Returned entries => Returned (Keys.k (keys obj), sortByX entries)
  end.

(** [main] from the parsed object on: what it writes to the console, or
    the exception that escapes it. *)
Definition mainParsed (obj : JsonObject) : run (list Console) :=
  match pointsFromJson obj with
  | Threw t => Threw t
  | Returned (k, points) =>
      if Z.of_nat (List.length points) <? k then
        Returned
          [Stderr ("Error: Interpolation requires " ++ showInteger k
                   ++ " points, but only "
                   ++ showInteger (Z.of_nat (List.length points))
                   ++ " were provided.")]
      else
        let polynomialDegree := k - 1 in
        match reconstructAtZero points k with
        | Err e => Threw (CoreError e)
        | Ok secret =>
            Returned
              [Stdout "--- Processing: Test Case ---";
               Stdout ("Polynomial degree m = k-1 = "
                       ++ showInteger polynomialDegree);
               Stdout ("Using " ++ showInteger k
                       ++ " points for interpolation.");
               Stdout "";
               Stdout "--- RESULT ---";
               Stdout ("The constant term 'c' is: " ++ showInteger secret);
               Stdout "--------------"]
        end
  end.

End Ingestion.

(** A sample pair of conversions for evaluating examples: unsigned decimal
    strings, read by [parseInBase] in base 10. *)
Definition decimalString (s : string) : option Z :=
  match parseInBase s 10 with
  | Ok v => Some v
  | Err _ => None
  end.

(** The order the sort establishes. *)
Definition ascendingX (p q : Point.t) : Prop := Point.x p <= Point.x q.

(** The points of abscissa [x0], in the order they occur. *)
Definition atX (x0 : Z) (points : list Point.t) : list Point.t :=
  filter (fun p => Point.x p =? x0) points.

(** * Properties *)

(** ** bigGcd computes the greatest common divisor *)

Lemma bigGcd_loop_gcd (a b : Z) :
  0 <= a -> 0 <= b -> bigGcd_loop a b = Z.gcd a b.
Proof.
  funelim (bigGcd_loop a b); intros Ha Hb.
  - subst b. rewrite Z.gcd_0_r. lia.
  - match goal with IH : _ -> _ -> bigGcd_loop _ _ = Z.gcd _ _ |- _ =>
      rewrite IH end.
    + rewrite Z.gcd_comm, Z.gcd_rem by assumption. apply Z.gcd_comm.
    + assumption.
    + apply Z.rem_nonneg; lia.
Qed.

Lemma bigGcd_gcd (a b : Z) : bigGcd a b = Z.gcd a b.
Proof.
  unfold bigGcd.
  destruct (Z.ltb_spec a 0), (Z.ltb_spec b 0);
    rewrite bigGcd_loop_gcd by lia;
    rewrite ?Z.gcd_opp_l, ?Z.gcd_opp_r; reflexivity.
Qed.

Lemma bigDiv_ok (a b : Z) : b <> 0 -> bigDiv a b = Ok (Z.quot a b).
Proof.
  intros Hb. unfold bigDiv. destruct (Z.eqb_spec b 0); [contradiction|reflexivity].
Qed.

Lemma bigRem_ok (a b : Z) : b <> 0 -> bigRem a b = Ok (Z.rem a b).
Proof.
  intros Hb. unfold bigRem. destruct (Z.eqb_spec b 0); [contradiction|reflexivity].
Qed.

(** ** Fraction *)

(** Construction on a positive denominator, spelled out. *)
Lemma constructor_pos (n0 d0 : Z) :
  0 < d0 ->
  Fraction.constructor n0 d0 =
    Ok (Fraction.mk (Z.quot n0 (Z.gcd n0 d0)) (Z.quot d0 (Z.gcd n0 d0))).
Proof.
  intros Hd. unfold Fraction.constructor.
  destruct (Z.eqb_spec d0 0); [lia|].
  destruct (Z.ltb_spec d0 0); [lia|].
  rewrite bigGcd_gcd.
  assert (Hg : Z.gcd n0 d0 <> 0) by (rewrite Z.gcd_eq_0; lia).
  rewrite !bigDiv_ok by assumption. reflexivity.
Qed.

Lemma constructor_neg (n0 d0 : Z) :
  d0 < 0 -> Fraction.constructor n0 d0 = Fraction.constructor (- n0) (- d0).
Proof.
  intros Hd. unfold Fraction.constructor.
  destruct (Z.eqb_spec d0 0); [lia|].
  destruct (Z.eqb_spec (- d0) 0); [lia|].
  destruct (Z.ltb_spec d0 0); [|lia].
  destruct (Z.ltb_spec (- d0) 0); [lia|].
  reflexivity.
Qed.

Lemma constructor_zero (n0 : Z) : Fraction.constructor n0 0 = Err ZeroDenominator.
Proof. reflexivity. Qed.

(** What a successful construction returns: a normalized fraction of the
    same value. *)
Lemma constructor_spec (n0 d0 : Z) :
  d0 <> 0 ->
  exists f, Fraction.constructor n0 d0 = Ok f /\ normalized f /\
            Fraction.n f * d0 = n0 * Fraction.d f.
Proof.
  assert (Hpos : forall n1 d1, 0 < d1 ->
    exists f, Fraction.constructor n1 d1 = Ok f /\ normalized f /\
              Fraction.n f * d1 = n1 * Fraction.d f).
  { intros n1 d1 Hd. rewrite constructor_pos by assumption.
    eexists; split; [reflexivity|].
    set (g := Z.gcd n1 d1).
    assert (Hg : 0 < g).
    { pose proof (Z.gcd_nonneg n1 d1).
      assert (g <> 0) by (unfold g; rewrite Z.gcd_eq_0; lia). lia. }
    destruct (Z.gcd_divide_l n1 d1) as [kn Hn].
    destruct (Z.gcd_divide_r n1 d1) as [kd Hk].
    fold g in Hn, Hk.
    pose proof (Z.gcd_div_gcd n1 d1 g ltac:(lia) eq_refl) as Hco.
    unfold normalized; cbn [Fraction.n Fraction.d].
    rewrite Hn, Hk in Hco |- *.
    rewrite !Z.quot_mul by lia. rewrite !Z.div_mul in Hco by lia.
    rewrite Z.gcd_abs_l.
    repeat split; [nia | exact Hco | ring]. }
  intros Hd.
  destruct (Z.lt_trichotomy d0 0) as [Hlt|[Heq|Hgt]]; [|contradiction|].
  - rewrite constructor_neg by assumption.
    destruct (Hpos (- n0) (- d0) ltac:(lia)) as (f & Hf & Hnorm & Hval).
    exists f. repeat split; try assumption; try apply Hnorm. lia.
  - apply Hpos; assumption.
Qed.

Lemma constructor_Ok_inv (n0 d0 : Z) (f : Fraction.t) :
  Fraction.constructor n0 d0 = Ok f ->
  d0 <> 0 /\ normalized f /\ Fraction.n f * d0 = n0 * Fraction.d f.
Proof.
  intros H.
  destruct (Z.eq_dec d0 0) as [->|Hd].
  - rewrite constructor_zero in H. discriminate.
  - destruct (constructor_spec n0 d0 Hd) as (f' & Hf' & Hnorm & Hval).
    rewrite Hf' in H. injection H as <-. auto.
Qed.

(** A failed construction is a zero denominator: the two divisions by the
    gcd never raise. *)
Lemma constructor_Err_inv (n0 d0 : Z) (e : JsError) :
  Fraction.constructor n0 d0 = Err e -> d0 = 0 /\ e = ZeroDenominator.
Proof.
  intros H.
  destruct (Z.eq_dec d0 0) as [->|Hd].
  - rewrite constructor_zero in H. injection H as <-. auto.
  - destruct (constructor_spec n0 d0 Hd) as (f' & Hf' & _).
    rewrite Hf' in H. discriminate.
Qed.

(** C3: Every Fraction produced by construction, by [add] or by [mul] has a
    positive denominator and is in lowest terms
    ([gcd(|numerator|, denominator) = 1]); on normalized operands [add] and
    [mul] do produce one.  [Fraction(4, -8)] is [(-1, 2)] and
    [Fraction(0, 5)] is [(0, 1)]. *)
Theorem fraction_invariant :
  (forall n0 d0 f, Fraction.constructor n0 d0 = Ok f -> normalized f) /\
  (forall n0 d0, d0 <> 0 -> exists f, Fraction.constructor n0 d0 = Ok f) /\
  (forall a b f, Fraction.add a b = Ok f -> normalized f) /\
  (forall a b f, Fraction.mul a b = Ok f -> normalized f) /\
  (forall a b, normalized a -> normalized b ->
     (exists f, Fraction.add a b = Ok f) /\
     (exists f, Fraction.mul a b = Ok f)) /\
  Fraction.constructor 4 (-8) = Ok (Fraction.mk (-1) 2) /\
  Fraction.constructor 0 5 = Ok (Fraction.mk 0 1).
Proof.
  repeat match goal with |- _ /\ _ => split end.
  - intros n0 d0 f H. eapply constructor_Ok_inv; eassumption.
  - intros n0 d0 Hd. destruct (constructor_spec n0 d0 Hd) as (f & Hf & _).
    exists f; exact Hf.
  - intros a b f H. unfold Fraction.add in H.
    eapply constructor_Ok_inv; eassumption.
  - intros a b f H. unfold Fraction.mul in H.
    eapply constructor_Ok_inv; eassumption.
  - intros a b [Ha _] [Hb _]. split.
    + unfold Fraction.add.
      destruct (constructor_spec
                  (Fraction.n a * Fraction.d b + Fraction.n b * Fraction.d a)
                  (Fraction.d a * Fraction.d b) ltac:(nia)) as (f & Hf & _).
      exists f; exact Hf.
    + unfold Fraction.mul.
      destruct (constructor_spec
                  (Fraction.n a * Fraction.n b)
                  (Fraction.d a * Fraction.d b) ltac:(nia)) as (f & Hf & _).
      exists f; exact Hf.
  - vm_compute. reflexivity.
  - vm_compute. reflexivity.
Qed.

Lemma fraction_invariant_witness :
  normalized (Fraction.mk (-1) 2) /\
  (exists f, Fraction.add (Fraction.mk 1 2) (Fraction.mk 1 3) = Ok f).
Proof.
  split.
  - apply (proj1 fraction_invariant 4 (-8) (Fraction.mk (-1) 2)).
    vm_compute. reflexivity.
  - apply (proj1 (proj2 (proj2 (proj2 (proj2 fraction_invariant)))));
      unfold normalized; cbn; split; (lia || reflexivity).
Defined.

(** C2: On a Fraction with positive denominator, [toBigIntExact] fails
    with the non-integer error exactly when [n mod d <> 0], and otherwise
    returns [n / d].  [Fraction(1, 3)] fails that way and [Fraction(6, 3)]
    gives 2. *)
Theorem toBigIntExact_exact :
  (forall f, 0 < Fraction.d f ->
     (Fraction.toBigIntExact f
        = Err (NonIntegerResult (Fraction.n f) (Fraction.d f))
      <-> Fraction.n f mod Fraction.d f <> 0) /\
     (Fraction.n f mod Fraction.d f = 0 ->
      Fraction.toBigIntExact f = Ok (Fraction.n f / Fraction.d f)) /\
     (forall e, Fraction.toBigIntExact f = Err e ->
        e = NonIntegerResult (Fraction.n f) (Fraction.d f))) /\
  (f <- Fraction.constructor 1 3 ;; Fraction.toBigIntExact f)
    = Err (NonIntegerResult 1 3) /\
  (f <- Fraction.constructor 6 3 ;; Fraction.toBigIntExact f) = Ok 2.
Proof.
  split; [|split; vm_compute; reflexivity].
  intros [fn fd] Hd; cbn [Fraction.n Fraction.d] in *.
  unfold Fraction.toBigIntExact; cbn [Fraction.n Fraction.d].
  rewrite bigRem_ok by lia. cbn [bind]. rewrite bigDiv_ok by lia.
  assert (Hrm : Z.rem fn fd = 0 <-> fn mod fd = 0).
  { rewrite Z.rem_divide, Z.mod_divide by lia. reflexivity. }
  destruct (Z.eqb_spec (Z.rem fn fd) 0) as [Hr|Hr]; cbn [negb].
  - assert (Hm : fn mod fd = 0) by (apply Hrm; exact Hr).
    repeat split.
    + discriminate.
    + intros HH; contradiction.
    + intros _. f_equal.
      apply Z.mod_divide in Hm; [|lia]. destruct Hm as [q ->].
      rewrite Z.quot_mul, Z.div_mul by lia. reflexivity.
    + discriminate.
  - assert (Hm : fn mod fd <> 0) by (intros HH; apply Hr, Hrm, HH).
    repeat split.
    + intros _; exact Hm.
    + intros HH; contradiction.
    + intros e He. injection He as <-. reflexivity.
Qed.

Lemma toBigIntExact_exact_witness :
  Fraction.toBigIntExact (Fraction.mk 6 3) = Ok (6 / 3).
Proof.
  apply (proj1 toBigIntExact_exact (Fraction.mk 6 3)); cbn.
  - lia.
  - reflexivity.
Defined.

(** ** parseInBase *)

Lemma parseInBase_loop_readable (base b : Z) (chars : list ascii) (res : Z) :
  readable b chars = true ->
  parseInBase_loop base b chars res =
    Ok (res * b ^ Z.of_nat (List.length (digitsOf chars))
        + positional b (digitsOf chars)).
Proof.
  revert res. induction chars as [|ch rest IH]; intros res Hr; cbn.
  - f_equal. ring.
  - cbn in Hr. apply andb_true_iff in Hr. destruct Hr as [Hch Hrest].
    unfold readableChar in Hch.
    destruct (classify ch) as [digit| |]; try discriminate.
    + apply Z.ltb_lt in Hch.
      destruct (Z.leb_spec b digit); [lia|].
      rewrite IH by assumption. f_equal.
      cbn [List.length positional].
      rewrite Nat2Z.inj_succ, Z.pow_succ_r by lia. ring.
    + apply IH; assumption.
Qed.

Lemma parseInBase_positional (str : string) (base : Z) :
  readable base (prepared str) = true ->
  parseInBase str base = Ok (positional base (digitsOf (prepared str))).
Proof.
  intros Hr. unfold parseInBase. fold (prepared str).
  rewrite parseInBase_loop_readable by assumption.
  f_equal; ring.
Qed.

(** The loop over a readable prefix reaches the rest of the input. *)
Lemma parseInBase_loop_app (base b : Z) (pre rest : list ascii) (res : Z) :
  readable b pre = true ->
  exists res', parseInBase_loop base b (pre ++ rest) res
               = parseInBase_loop base b rest res'.
Proof.
  revert res. induction pre as [|ch pre IH]; intros res Hr; cbn.
  - exists res; reflexivity.
  - cbn in Hr. apply andb_true_iff in Hr. destruct Hr as [Hch Hpre].
    unfold readableChar in Hch.
    destruct (classify ch) as [digit| |]; try discriminate.
    + apply Z.ltb_lt in Hch. destruct (Z.leb_spec b digit); [lia|].
      apply IH; assumption.
    + apply IH; assumption.
Qed.

(** What the loop returns, by the first character it cannot get past. *)
Lemma parseInBase_loop_cases (base b : Z) (chars : list ascii) (res : Z) :
  match parseInBase_loop base b chars res with
  | Ok _ => readable b chars = true
  | Err e =>
      exists pre ch post,
        chars = pre ++ ch :: post /\ readable b pre = true /\
        ((classify ch = IsInvalid /\ e = InvalidDigit ch) \/
         (exists digit, classify ch = IsDigit digit /\ b <= digit /\
                        e = DigitOutOfRange ch base))
  end.
Proof.
  revert res. induction chars as [|ch rest IH]; intros res; cbn.
  - reflexivity.
  - unfold readableChar.
    destruct (classify ch) as [digit| |] eqn:Hc.
    + destruct (Z.leb_spec b digit) as [Hle|Hlt].
      * exists [], ch, rest. split; [reflexivity|]. split; [reflexivity|].
        right. exists digit. auto.
      * specialize (IH (res * b + digit)).
        destruct (parseInBase_loop base b rest (res * b + digit)) as [v|e].
        -- apply andb_true_iff. split; [apply Z.ltb_lt; lia|exact IH].
        -- destruct IH as (pre & c & post & -> & Hpre & Hcase).
           exists (ch :: pre), c, post.
           split; [reflexivity|]. split; [|exact Hcase].
           cbn. unfold readableChar. rewrite Hc.
           apply andb_true_iff. split; [apply Z.ltb_lt; lia|exact Hpre].
    + specialize (IH res).
      destruct (parseInBase_loop base b rest res) as [v|e].
      * exact IH.
      * destruct IH as (pre & c & post & -> & Hpre & Hcase).
        exists (ch :: pre), c, post.
        split; [reflexivity|]. split; [|exact Hcase].
        cbn. unfold readableChar. rewrite Hc. exact Hpre.
    + exists [], ch, rest. split; [reflexivity|]. split; [reflexivity|].
      left. auto.
Qed.

(** C5: [parseInBase] reads the trimmed, case-folded string left to right,
    skipping spaces, and returns the positional-notation value of its
    digits ['0'-'9' -> 0-9], ['a'-'z' -> 10-35]; ["ff"] in base 16 is 255,
    ["111"] in base 2 is 7, ["z"] in base 36 is 35, ["10"] in base 10
    is 10. *)
Theorem parseInBase_positional_value :
  (forall str base, 2 <= base <= 36 ->
     readable base (prepared str) = true ->
     parseInBase str base = Ok (positional base (digitsOf (prepared str)))) /\
  digitsOf (list_ascii_of_string "0123456789") = [0; 1; 2; 3; 4; 5; 6; 7; 8; 9] /\
  digitsOf (list_ascii_of_string "abcdefghijklmnopqrstuvwxyz")
    = [10; 11; 12; 13; 14; 15; 16; 17; 18; 19; 20; 21; 22; 23; 24; 25; 26;
       27; 28; 29; 30; 31; 32; 33; 34; 35] /\
  prepared "  1F e " = list_ascii_of_string "1f e" /\
  digitsOf (prepared "  1F e ") = [1; 15; 14] /\
  parseInBase "ff" 16 = Ok 255 /\
  parseInBase "111" 2 = Ok 7 /\
  parseInBase "z" 36 = Ok 35 /\
  parseInBase "10" 10 = Ok 10.
Proof.
  split; [|repeat split; vm_compute; reflexivity].
  intros str base _ Hr. apply parseInBase_positional; exact Hr.
Qed.

Lemma parseInBase_positional_value_witness :
  parseInBase " 1F e" 16 = Ok (positional 16 (digitsOf (prepared " 1F e"))).
Proof.
  apply (proj1 parseInBase_positional_value " 1F e"%string 16).
  - lia.
  - vm_compute. reflexivity.
Defined.

(** C9: [parseInBase] has no check of [base] against 2..36: for a base
    outside that range it still returns the positional accumulation of
    every string whose digit values are below [base]; ["0"] in base 1 is 0
    and ["z"] in base 37 is 35, without error. *)
Theorem parseInBase_unchecked_base :
  (forall str base, base < 2 \/ 36 < base ->
     readable base (prepared str) = true ->
     parseInBase str base = Ok (positional base (digitsOf (prepared str)))) /\
  parseInBase "0" 1 = Ok 0 /\
  parseInBase "z" 37 = Ok 35.
Proof.
  split; [|split; vm_compute; reflexivity].
  intros str base _ Hr. apply parseInBase_positional; exact Hr.
Qed.

Lemma parseInBase_unchecked_base_witness :
  parseInBase "Zz" 40 = Ok (positional 40 (digitsOf (prepared "Zz"))).
Proof.
  apply (proj1 parseInBase_unchecked_base "Zz"%string 40).
  - lia.
  - vm_compute. reflexivity.
Defined.

Lemma trimStart_spaces (chars : list ascii) :
  (forall ch, In ch chars -> ch = " "%char) -> trimStart chars = [].
Proof.
  induction chars as [|ch rest IH]; intros Hall; cbn.
  - reflexivity.
  - rewrite (Hall ch (or_introl eq_refl)). cbn.
    apply IH. intros c Hc. apply Hall. right; exact Hc.
Qed.

(** C10: For every base, [parseInBase] of a string that is empty or made
    of spaces only returns 0, with no error. *)
Theorem parseInBase_blank :
  forall str base,
    (forall ch, In ch (list_ascii_of_string str) -> ch = " "%char) ->
    parseInBase str base = Ok 0.
Proof.
  intros str base Hall. unfold parseInBase, trim.
  rewrite (trimStart_spaces (list_ascii_of_string str)) by assumption.
  reflexivity.
Qed.

Lemma parseInBase_blank_witness :
  parseInBase "" 10 = Ok 0 /\ parseInBase "   " 7 = Ok 0.
Proof.
  split.
  - apply (parseInBase_blank ""%string 10). cbn. intros ch [].
  - apply (parseInBase_blank "   "%string 7). cbn.
    intros ch [H|[H|[H|[]]]]; symmetry; exact H.
Defined.

(** C6 (as stated): it is not the case that [parseInBase] fails with the
    invalid-digit error whenever some character of the trimmed, case-folded
    string is outside [0-9a-z] and not a space: in ["g#"], base 16, the
    out-of-range digit [g] comes first. *)
Lemma parseInBase_invalid_iff_counterexample :
  ~ (forall str base, 2 <= base <= 36 ->
       ((exists ch, parseInBase str base = Err (InvalidDigit ch)) <->
        (exists ch, In ch (prepared str) /\ classify ch = IsInvalid))).
Proof.
  intros H.
  destruct (H "g#"%string 16 ltac:(lia)) as [_ Hback].
  destruct Hback as [ch Hch].
  - exists "#"%char. split; [right; left; reflexivity | reflexivity].
  - vm_compute in Hch. discriminate Hch.
Qed.

(** C6 (amended): for a base in 2..36, the first character of the trimmed,
    case-folded string that is neither a space nor a digit of value below
    [base] decides the error: [parseInBase] fails with the invalid-digit
    error exactly when that character is outside [0-9a-z], with the
    out-of-range error exactly when it is a digit of value [>= base], and
    succeeds exactly when there is no such character.  ["1g"] in base 16
    is out of range, ["1#"] in base 16 is an invalid digit. *)
Theorem parseInBase_first_offender :
  (forall str base ch, 2 <= base <= 36 ->
     (parseInBase str base = Err (InvalidDigit ch) <->
      exists pre post,
        prepared str = pre ++ ch :: post /\ readable base pre = true /\
        classify ch = IsInvalid) /\
     (parseInBase str base = Err (DigitOutOfRange ch base) <->
      exists pre post digit,
        prepared str = pre ++ ch :: post /\ readable base pre = true /\
        classify ch = IsDigit digit /\ base <= digit) /\
     ((exists v, parseInBase str base = Ok v) <->
      readable base (prepared str) = true)) /\
  parseInBase "1g" 16 = Err (DigitOutOfRange "g" 16) /\
  parseInBase "1#" 16 = Err (InvalidDigit "#").
Proof.
  split; [|split; vm_compute; reflexivity].
  intros str base ch _.
  pose proof (parseInBase_loop_cases base base (prepared str) 0) as Hcases.
  unfold parseInBase. fold (prepared str).
  repeat match goal with |- _ /\ _ => split | |- _ <-> _ => split end.
  - intros Hp. rewrite Hp in Hcases.
    destruct Hcases as (pre & c & post & Heq & Hpre & [[Hc He]|(dg & Hc & Hle & He)]).
    + injection He as ->. exists pre, post. auto.
    + discriminate He.
  - intros (pre & post & Heq & Hpre & Hc). rewrite Heq.
    destruct (parseInBase_loop_app base base pre (ch :: post) 0 Hpre) as [r ->].
    cbn. rewrite Hc. reflexivity.
  - intros Hp. rewrite Hp in Hcases.
    destruct Hcases as (pre & c & post & Heq & Hpre & [[Hc He]|(dg & Hc & Hle & He)]).
    + discriminate He.
    + injection He as ->. exists pre, post, dg. auto.
  - intros (pre & post & dg & Heq & Hpre & Hc & Hle). rewrite Heq.
    destruct (parseInBase_loop_app base base pre (ch :: post) 0 Hpre) as [r ->].
    cbn. rewrite Hc. destruct (Z.leb_spec base dg); [reflexivity|lia].
  - intros [v Hv]. rewrite Hv in Hcases. exact Hcases.
  - intros Hr. rewrite parseInBase_loop_readable by assumption.
    eexists; reflexivity.
Qed.

Lemma parseInBase_first_offender_witness :
  parseInBase "g#" 16 = Err (DigitOutOfRange "g" 16).
Proof.
  apply (proj1 parseInBase_first_offender "g#"%string 16 "g"%char).
  - lia.
  - exists [], ["#"%char], 16. vm_compute. repeat split. discriminate.
Defined.

(** ** reconstructAtZero: the working set *)

Lemma slice0_firstn {A : Type} (points : list A) (k : Z) :
  0 <= k -> slice0 points k = firstn (Z.to_nat k) points.
Proof.
  intros Hk. unfold slice0.
  destruct (Z.ltb_spec k 0); [lia|].
  destruct (Z.le_gt_cases k (Z.of_nat (List.length points))) as [Hle|Hgt].
  - rewrite Z.min_l by lia. reflexivity.
  - rewrite Z.min_r by lia. rewrite Nat2Z.id.
    rewrite !firstn_all2 by lia. reflexivity.
Qed.

Lemma slice0_idem {A : Type} (points : list A) (k : Z) :
  0 <= k -> slice0 (firstn (Z.to_nat k) points) k = slice0 points k.
Proof.
  intros Hk. rewrite !slice0_firstn by assumption.
  rewrite firstn_firstn, Nat.min_id. reflexivity.
Qed.

(** C8: With at least [k] points, [reconstructAtZero(points, k)] is
    [reconstructAtZero] of the [k]-element prefix: the points after the
    first [k] change neither the result nor the error. *)
Theorem reconstructAtZero_prefix :
  forall points k,
    0 <= k <= Z.of_nat (List.length points) ->
    List.length (firstn (Z.to_nat k) points) = Z.to_nat k /\
    reconstructAtZero points k
      = reconstructAtZero (firstn (Z.to_nat k) points) k /\
    forall surplus,
      reconstructAtZero (firstn (Z.to_nat k) points ++ surplus) k
        = reconstructAtZero points k.
Proof.
  intros points k Hk.
  assert (Hlen : List.length (firstn (Z.to_nat k) points) = Z.to_nat k).
  { rewrite length_firstn. lia. }
  split; [exact Hlen|]. split.
  - unfold reconstructAtZero. rewrite slice0_idem by lia. reflexivity.
  - intros surplus. unfold reconstructAtZero.
    rewrite !slice0_firstn by lia.
    rewrite firstn_app, Hlen, Nat.sub_diag, firstn_O, app_nil_r.
    rewrite firstn_firstn, Nat.min_id. reflexivity.
Qed.

Lemma reconstructAtZero_prefix_witness :
  reconstructAtZero
    [Point.mk 1 10; Point.mk 2 19; Point.mk 3 32; Point.mk 4 0] 3
  = reconstructAtZero [Point.mk 1 10; Point.mk 2 19; Point.mk 3 32] 3.
Proof.
  apply (reconstructAtZero_prefix
           [Point.mk 1 10; Point.mk 2 19; Point.mk 3 32; Point.mk 4 0] 3).
  cbn. lia.
Defined.

(** ** The inner loop, reduced and not reduced *)

Lemma basisWeight_loop_noReduce_eq (i : nat) (xi : Z) (rest : list Point.t) :
  forall j num den,
    basisWeight_loop_noReduce i xi j rest num den
    = Ok (num * skipProd Z.opp i j rest,
          den * skipProd (fun xj => xi - xj) i j rest).
Proof.
  induction rest as [|pj rest IH]; intros j num den; cbn.
  - f_equal. f_equal; ring.
  - destruct (j =? i)%nat.
    + apply IH.
    + rewrite IH. f_equal. f_equal; ring.
Qed.

(** The reduced pair is the unreduced one divided by a positive common
    factor; the loop itself never raises. *)
Lemma basisWeight_loop_scaled (i : nat) (xi : Z) (rest : list Point.t) :
  forall j num den c,
    0 < c ->
    exists num' den' c',
      0 < c' /\
      basisWeight_loop i xi j rest num den = Ok (num', den') /\
      basisWeight_loop_noReduce i xi j rest (c * num) (c * den)
      = Ok (c' * num', c' * den').
Proof.
  induction rest as [|pj rest IH]; intros j num den c Hc; cbn.
  - exists num, den, c. auto.
  - destruct (j =? i)%nat.
    + apply IH; assumption.
    + rewrite bigGcd_gcd.
      set (a := num * - Point.x pj). set (b := den * (xi - Point.x pj)).
      replace (c * num * - Point.x pj) with (c * a) by (unfold a; ring).
      replace (c * den * (xi - Point.x pj)) with (c * b) by (unfold b; ring).
      destruct (Z.ltb_spec 1 (Z.gcd a b)) as [Hg|Hg].
      * rewrite !bigDiv_ok by lia. cbn [bind].
        destruct (Z.gcd_divide_l a b) as [ka Ha].
        destruct (Z.gcd_divide_r a b) as [kb Hb].
        set (g := Z.gcd a b) in *.
        replace (a ÷ g) with ka by (rewrite Ha, Z.quot_mul by lia; reflexivity).
        replace (b ÷ g) with kb by (rewrite Hb, Z.quot_mul by lia; reflexivity).
        replace (c * a) with ((c * g) * ka) by (rewrite Ha; ring).
        replace (c * b) with ((c * g) * kb) by (rewrite Hb; ring).
        apply IH. nia.
      * apply IH; assumption.
Qed.

Lemma constructor_scale (c a b : Z) :
  0 < c -> Fraction.constructor (c * a) (c * b) = Fraction.constructor a b.
Proof.
  intros Hc.
  assert (Hpos : forall a' b', 0 < b' ->
            Fraction.constructor (c * a') (c * b') = Fraction.constructor a' b').
  { intros a' b' Hb. rewrite !constructor_pos by nia.
    rewrite Z.gcd_mul_mono_l_nonneg by lia.
    assert (Z.gcd a' b' <> 0) by (rewrite Z.gcd_eq_0; lia).
    rewrite !Z.quot_mul_cancel_l by lia. reflexivity. }
  destruct (Z.lt_trichotomy b 0) as [Hlt|[->|Hgt]].
  - rewrite (constructor_neg a b) by assumption.
    rewrite (constructor_neg (c * a) (c * b)) by nia.
    rewrite <- (Hpos (- a) (- b)) by lia. f_equal; ring.
  - rewrite Z.mul_0_r. reflexivity.
  - apply Hpos; assumption.
Qed.

Lemma reconstruct_loop_noReduce_eq (P rest : list Point.t) :
  forall i sum,
    reconstruct_loop P i rest sum = reconstruct_loop_noReduce P i rest sum.
Proof.
  induction rest as [|p rest IH]; intros i sum; cbn.
  - reflexivity.
  - destruct (basisWeight_loop_scaled i (Point.x p) P 0 1 1 1 ltac:(lia))
      as (num & den & c & Hc & Hred & Hno).
    cbn in Hno. rewrite Hred, Hno. cbn [bind fst snd].
    replace (Point.y p * (c * num)) with (c * (Point.y p * num)) by ring.
    rewrite constructor_scale by assumption.
    destruct (Fraction.constructor (Point.y p * num) den) as [term|e]; cbn.
    + destruct (Fraction.add sum term) as [sum'|e]; cbn; [apply IH|reflexivity].
    + reflexivity.
Qed.

Lemma reconstructAtZero_noReduce_eq (points : list Point.t) (k : Z) :
  reconstructAtZero points k = reconstructAtZero_noReduce points k.
Proof.
  unfold reconstructAtZero, reconstructAtZero_noReduce.
  destruct (Fraction.fromBigInt 0) as [sum0|e]; cbn; [|reflexivity].
  rewrite reconstruct_loop_noReduce_eq. reflexivity.
Qed.

(** C7: For every point list whose first [k] points have pairwise-distinct
    [x], [reconstructAtZero] returns what the same algorithm without the
    gcd reduction of [num] and [den] returns, value or error. *)
Theorem reconstructAtZero_reduction_irrelevant :
  forall points k,
    distinctX (slice0 points k) ->
    reconstructAtZero points k = reconstructAtZero_noReduce points k.
Proof.
  intros points k _. apply reconstructAtZero_noReduce_eq.
Qed.

Lemma reconstructAtZero_reduction_irrelevant_witness :
  reconstructAtZero [Point.mk 2 4; Point.mk 4 16; Point.mk 6 36] 3
  = reconstructAtZero_noReduce [Point.mk 2 4; Point.mk 4 16; Point.mk 6 36] 3.
Proof.
  apply (reconstructAtZero_reduction_irrelevant
           [Point.mk 2 4; Point.mk 4 16; Point.mk 6 36] 3).
  unfold distinctX. cbn.
  repeat constructor; cbn; intuition discriminate.
Defined.

(** ** The outer loop *)

Lemma fromBigInt_zero : Fraction.fromBigInt 0 = Ok (Fraction.mk 0 1).
Proof. vm_compute. reflexivity. Qed.

Lemma skipProd_zero (f : Z -> Z) (i : nat) (rest : list Point.t) :
  forall j m p,
    nth_error rest m = Some p -> (j + m)%nat <> i -> f (Point.x p) = 0 ->
    skipProd f i j rest = 0.
Proof.
  induction rest as [|pj rest IH]; intros j m p Hm Hne Hf.
  - destruct m; discriminate.
  - cbn. destruct m as [|m]; cbn in Hm.
    + injection Hm as ->. rewrite Nat.add_0_r in Hne.
      apply Nat.eqb_neq in Hne. rewrite Hne, Hf. reflexivity.
    + assert (Hrest : skipProd f i (S j) rest = 0).
      { apply (IH (S j) m p); [assumption|lia|assumption]. }
      rewrite Hrest. destruct (j =? i)%nat; [reflexivity|ring].
Qed.

Lemma skipProd_nonzero (f : Z -> Z) (i : nat) (rest : list Point.t) :
  forall j,
    (forall m p, nth_error rest m = Some p -> (j + m)%nat <> i ->
                 f (Point.x p) <> 0) ->
    skipProd f i j rest <> 0.
Proof.
  induction rest as [|pj rest IH]; intros j Hall; cbn.
  - discriminate.
  - assert (Hrest : skipProd f i (S j) rest <> 0).
    { apply IH. intros m p Hm Hne. apply (Hall (S m) p); [exact Hm|lia]. }
    destruct (Nat.eqb_spec j i) as [Heq|Hne]; [exact Hrest|].
    assert (f (Point.x pj) <> 0).
    { apply (Hall 0%nat pj); [reflexivity|lia]. }
    nia.
Qed.

(** One iteration of the outer loop, without reduction. *)
Lemma reconstruct_loop_noReduce_step (P rest : list Point.t) (p : Point.t)
    (i : nat) (sum : Fraction.t) :
  reconstruct_loop_noReduce P i (p :: rest) sum =
    (term <- Fraction.constructor
               (Point.y p * basisNum P i 0) (basisDen P i (Point.x p)) ;;
     sum' <- Fraction.add sum term ;;
     reconstruct_loop_noReduce P (S i) rest sum').
Proof.
  cbn [reconstruct_loop_noReduce].
  rewrite basisWeight_loop_noReduce_eq. cbn [bind fst snd].
  unfold basisNum, basisDen. rewrite !Z.mul_1_l. reflexivity.
Qed.

(** The loop either runs through, every denominator being non-zero, or
    stops on a zero denominator. *)
Lemma reconstruct_loop_noReduce_cases (P rest : list Point.t) :
  forall i sum,
    0 < Fraction.d sum ->
    (exists s', reconstruct_loop_noReduce P i rest sum = Ok s' /\
                0 < Fraction.d s' /\
                forall m p, nth_error rest m = Some p ->
                            basisDen P (i + m) (Point.x p) <> 0)
    \/
    (reconstruct_loop_noReduce P i rest sum = Err ZeroDenominator /\
     exists m p, nth_error rest m = Some p /\
                 basisDen P (i + m) (Point.x p) = 0).
Proof.
  induction rest as [|p rest IH]; intros i sum Hsum.
  - left. exists sum. split; [reflexivity|]. split; [assumption|].
    intros m q Hm. destruct m; discriminate.
  - rewrite reconstruct_loop_noReduce_step.
    destruct (Z.eq_dec (basisDen P i (Point.x p)) 0) as [Hz|Hnz].
    + right. rewrite Hz, constructor_zero. split; [reflexivity|].
      exists 0%nat, p. rewrite Nat.add_0_r. auto.
    + destruct (constructor_spec (Point.y p * basisNum P i 0)
                  (basisDen P i (Point.x p)) Hnz)
        as (term & -> & [Hterm _] & _).
      cbn [bind]. unfold Fraction.add.
      destruct (constructor_spec
                  (Fraction.n sum * Fraction.d term
                   + Fraction.n term * Fraction.d sum)
                  (Fraction.d sum * Fraction.d term) ltac:(nia))
        as (sum' & -> & [Hsum' _] & _).
      cbn [bind].
      destruct (IH (S i) sum' Hsum') as [(s' & Hs' & Hd & Hall)|(He & m & q & Hm & Hq)].
      * left. exists s'. split; [assumption|]. split; [assumption|].
        intros [|m] q Hm; cbn in Hm.
        -- injection Hm as <-. rewrite Nat.add_0_r. assumption.
        -- replace (i + S m)%nat with (S i + m)%nat by lia. apply Hall, Hm.
      * right. split; [assumption|].
        exists (S m), q. replace (i + S m)%nat with (S i + m)%nat by lia. auto.
Qed.

(** C4: A Fraction with denominator 0 cannot be constructed, the error is
    the zero-denominator one; and whenever two of the first [k] points
    have the same [x], [reconstructAtZero] fails with that error. *)
Theorem duplicate_x_zero_denominator :
  (forall n0, Fraction.constructor n0 0 = Err ZeroDenominator) /\
  (forall points k a b pa pb,
     0 <= k -> (a < b)%nat -> (b < Z.to_nat k)%nat ->
     nth_error points a = Some pa -> nth_error points b = Some pb ->
     Point.x pa = Point.x pb ->
     reconstructAtZero points k = Err ZeroDenominator).
Proof.
  split; [intros n0; reflexivity|].
  intros points k a b pa pb Hk Hab Hbk Ha Hb Hx.
  rewrite reconstructAtZero_noReduce_eq.
  unfold reconstructAtZero_noReduce.
  rewrite slice0_firstn by assumption.
  set (P := firstn (Z.to_nat k) points).
  assert (HPa : nth_error P a = Some pa).
  { unfold P. rewrite nth_error_firstn.
    destruct (Nat.ltb_spec a (Z.to_nat k)); [assumption|lia]. }
  assert (HPb : nth_error P b = Some pb).
  { unfold P. rewrite nth_error_firstn.
    destruct (Nat.ltb_spec b (Z.to_nat k)); [assumption|lia]. }
  assert (Hden : basisDen P a (Point.x pa) = 0).
  { unfold basisDen. apply (skipProd_zero _ a P 0%nat b pb); [assumption|lia|lia]. }
  rewrite fromBigInt_zero. cbn [bind].
  destruct (reconstruct_loop_noReduce_cases P P 0%nat (Fraction.mk 0 1))
    as [(s' & _ & _ & Hall)|(He & _)]; [cbn; lia| |].
  - exfalso. apply (Hall a pa HPa). exact Hden.
  - rewrite He. reflexivity.
Qed.

Lemma duplicate_x_zero_denominator_witness :
  reconstructAtZero [Point.mk 1 10; Point.mk 2 19; Point.mk 2 32] 3
  = Err ZeroDenominator.
Proof.
  apply (proj2 duplicate_x_zero_denominator
           [Point.mk 1 10; Point.mk 2 19; Point.mk 2 32] 3
           1%nat 2%nat (Point.mk 2 19) (Point.mk 2 32)).
  - lia.
  - lia.
  - cbn. lia.
  - reflexivity.
  - reflexivity.
  - reflexivity.
Defined.

(** ** Polynomials: few coefficients, many roots *)

Section Polynomials.

Local Open Scope Q_scope.

Lemma peval_cons (a : Q) (c : list Q) (t : Q) :
  peval (a :: c) t = a + t * peval c t.
Proof. reflexivity. Qed.

(** Division by [t - r], Horner's way. *)
Lemma peval_div (r : Q) (c : list Q) :
  forall a, exists q,
    List.length q = List.length c /\
    forall t, peval (a :: c) t == (t - r) * peval q t + peval (a :: c) r.
Proof.
  induction c as [|b c IH]; intros a.
  - exists []. split; [reflexivity|]. intros t. cbn. ring.
  - destruct (IH b) as (q & Hlen & Hq).
    exists (peval (b :: c) r :: q). split; [cbn; lia|].
    intros t.
    rewrite (peval_cons a (b :: c) t), (peval_cons a (b :: c) r).
    rewrite (peval_cons (peval (b :: c) r) q t).
    rewrite (Hq t). ring.
Qed.

Lemma inject_Z_neq (u v : Z) : u <> v -> ~ inject_Z u - inject_Z v == 0.
Proof.
  intros Hne H. apply Hne. apply inject_Z_injective.
  rewrite <- (Qplus_0_l (inject_Z v)), <- H. ring.
Qed.

(** A polynomial with no more coefficients than it has distinct integer
    roots vanishes everywhere. *)
Lemma poly_roots (rs : list Z) :
  forall c,
    (List.length c <= List.length rs)%nat -> NoDup rs ->
    (forall r, In r rs -> peval c (inject_Z r) == 0) ->
    forall t, peval c t == 0.
Proof.
  induction rs as [|r rs IH]; intros c Hlen Hnd Hroots t.
  - destruct c; [reflexivity|cbn in Hlen; lia].
  - destruct c as [|a c]; [reflexivity|].
    destruct (peval_div (inject_Z r) c a) as (q & Hq & Hdiv).
    inversion Hnd as [|? ? Hnotin Hnd']; subst.
    assert (Hr : peval (a :: c) (inject_Z r) == 0)
      by (apply Hroots; left; reflexivity).
    assert (Hqz : forall t', peval q t' == 0).
    { apply IH.
      - cbn in Hlen. lia.
      - assumption.
      - intros r' Hin.
        assert (Hr' : peval (a :: c) (inject_Z r') == 0)
          by (apply Hroots; right; exact Hin).
        rewrite (Hdiv (inject_Z r')), Hr, Qplus_0_r in Hr'.
        apply (Qmult_integral_l _ _ (inject_Z_neq r' r
                 ltac:(intros ->; contradiction)) Hr'). }
    rewrite (Hdiv t), Hr, (Hqz t). ring.
Qed.

Lemma peval_padd (c1 : list Q) :
  forall c2 t, peval (padd c1 c2) t == peval c1 t + peval c2 t.
Proof.
  induction c1 as [|a c1 IH]; intros c2 t.
  - cbn. ring.
  - destruct c2 as [|b c2].
    + cbn. ring.
    + cbn [padd]. rewrite !peval_cons, IH. ring.
Qed.

Lemma length_padd (c1 : list Q) :
  forall c2, List.length (padd c1 c2)
             = Nat.max (List.length c1) (List.length c2).
Proof.
  induction c1 as [|a c1 IH]; intros c2.
  - reflexivity.
  - destruct c2 as [|b c2]; [reflexivity|].
    cbn. rewrite IH. reflexivity.
Qed.

Lemma peval_pscale (a : Q) (c : list Q) (t : Q) :
  peval (pscale a c) t == a * peval c t.
Proof.
  induction c as [|b c IH].
  - cbn. ring.
  - unfold pscale in *. cbn [map]. rewrite !peval_cons, IH. ring.
Qed.

Lemma polyFun_ext (m : nat) (g h : Z -> Q) :
  (forall t, g t == h t) -> polyFun m g -> polyFun m h.
Proof.
  intros Hgh (c & Hlen & Hc). exists c. split; [assumption|].
  intros t. rewrite <- Hgh. apply Hc.
Qed.

Lemma polyFun_le (m m' : nat) (g : Z -> Q) :
  (m <= m')%nat -> polyFun m g -> polyFun m' g.
Proof.
  intros Hle (c & Hlen & Hc). exists c. split; [lia|assumption].
Qed.

Lemma polyFun_zero : polyFun 0 (fun _ => 0).
Proof. exists []. split; [reflexivity|]. intros t. reflexivity. Qed.

Lemma polyFun_const (a : Q) : polyFun 1 (fun _ => a).
Proof. exists [a]. split; [reflexivity|]. intros t. cbn. ring. Qed.

Lemma polyFun_add (m : nat) (g h : Z -> Q) :
  polyFun m g -> polyFun m h -> polyFun m (fun t => g t + h t).
Proof.
  intros (c1 & Hl1 & Hc1) (c2 & Hl2 & Hc2). exists (padd c1 c2). split.
  - rewrite length_padd. lia.
  - intros t. rewrite peval_padd, Hc1, Hc2. reflexivity.
Qed.

Lemma polyFun_scale (m : nat) (a : Q) (g : Z -> Q) :
  polyFun m g -> polyFun m (fun t => a * g t).
Proof.
  intros (c & Hl & Hc). exists (pscale a c). split.
  - unfold pscale. rewrite length_map. assumption.
  - intros t. rewrite peval_pscale, Hc. reflexivity.
Qed.

Lemma polyFun_linear (m : nat) (a : Z) (g : Z -> Q) :
  polyFun m g ->
  polyFun (S m) (fun t => (inject_Z t - inject_Z a) * g t).
Proof.
  intros (c & Hl & Hc).
  exists (padd (0 :: c) (pscale (- inject_Z a) c)). split.
  - rewrite length_padd. unfold pscale. rewrite length_map.
    cbn [List.length]. lia.
  - intros t. rewrite peval_padd, peval_pscale, peval_cons, Hc. ring.
Qed.

(** A polynomial function with no more coefficients than distinct
    integer roots is zero on the integers. *)
Lemma polyFun_roots (m : nat) (g : Z -> Q) (rs : list Z) :
  polyFun m g -> (m <= List.length rs)%nat -> NoDup rs ->
  (forall r, In r rs -> g r == 0) ->
  forall t, g t == 0.
Proof.
  intros (c & Hl & Hc) Hm Hnd Hroots t.
  rewrite Hc. apply (poly_roots rs); [lia|assumption|].
  intros r Hin. rewrite <- Hc. apply Hroots, Hin.
Qed.

Lemma polyFun_polyEval (coeffs : list Z) :
  polyFun (List.length coeffs) (fun t => inject_Z (polyEval coeffs t)).
Proof.
  exists (map inject_Z coeffs). split; [rewrite length_map; lia|].
  intros t. induction coeffs as [|a coeffs IH].
  - reflexivity.
  - cbn [polyEval map]. rewrite peval_cons, <- IH.
    rewrite inject_Z_plus, inject_Z_mult. reflexivity.
Qed.

End Polynomials.

(** ** Lagrange's formula *)

Section Lagrange.

Local Open Scope Q_scope.

Lemma inject_Z_sub (u v : Z) : inject_Z (u - v) == inject_Z u - inject_Z v.
Proof.
  unfold Z.sub. rewrite inject_Z_plus, inject_Z_opp. ring.
Qed.

Lemma inject_Z_nonzero (u : Z) : u <> 0%Z -> ~ inject_Z u == 0.
Proof.
  intros Hne H. apply Hne. apply inject_Z_injective. exact H.
Qed.

Lemma polyFun_skipProd_any (i : nat) (rest : list Point.t) :
  forall j,
    polyFun (S (List.length rest))
      (fun t => inject_Z (skipProd (fun xj => (t - xj)%Z) i j rest)).
Proof.
  induction rest as [|pj rest IH]; intros j.
  - apply (polyFun_const (inject_Z 1)).
  - cbn [skipProd List.length]. destruct (j =? i)%nat.
    + apply (polyFun_le (S (List.length rest))); [lia|apply IH].
    + apply (polyFun_ext _
               (fun t => (inject_Z t - inject_Z (Point.x pj))
                         * inject_Z (skipProd (fun xj => (t - xj)%Z)
                                       i (S j) rest))).
      * intros t. rewrite inject_Z_mult, inject_Z_sub. reflexivity.
      * apply polyFun_linear, IH.
Qed.

Lemma polyFun_skipProd_in (i : nat) (rest : list Point.t) :
  forall j,
    (j <= i < j + List.length rest)%nat ->
    polyFun (List.length rest)
      (fun t => inject_Z (skipProd (fun xj => (t - xj)%Z) i j rest)).
Proof.
  induction rest as [|pj rest IH]; intros j Hj.
  - cbn in Hj. lia.
  - cbn [skipProd List.length]. destruct (Nat.eqb_spec j i) as [Heq|Hne].
    + apply polyFun_skipProd_any.
    + apply (polyFun_ext _
               (fun t => (inject_Z t - inject_Z (Point.x pj))
                         * inject_Z (skipProd (fun xj => (t - xj)%Z)
                                       i (S j) rest))).
      * intros t. rewrite inject_Z_mult, inject_Z_sub. reflexivity.
      * apply polyFun_linear, IH. cbn [List.length] in Hj. lia.
Qed.

Lemma polyFun_lagrangeSum (P rest : list Point.t) :
  forall i,
    (i + List.length rest <= List.length P)%nat ->
    polyFun (List.length P) (fun t => lagrangeSum P t i rest).
Proof.
  induction rest as [|p rest IH]; intros i Hi.
  - apply (polyFun_le 0); [lia|apply polyFun_zero].
  - cbn [lagrangeSum]. cbn [List.length] in Hi. apply polyFun_add.
    + apply (polyFun_ext _
               (fun t => (inject_Z (Point.y p)
                          / inject_Z (basisDen P i (Point.x p)))
                         * inject_Z (basisNum P i t))).
      * intros t. rewrite inject_Z_mult. unfold Qdiv. ring.
      * apply polyFun_scale. unfold basisNum.
        apply polyFun_skipProd_in. lia.
    + apply IH. lia.
Qed.

Variable P : list Point.t.
Hypothesis P_distinct : distinctX P.

Lemma distinct_nth (l m : nat) (pl pm : Point.t) :
  nth_error P l = Some pl -> nth_error P m = Some pm -> m <> l ->
  Point.x pl <> Point.x pm.
Proof.
  intros Hl Hm Hne Hx. apply Hne.
  apply (proj1 (NoDup_nth_error (map Point.x P)) P_distinct).
  - rewrite length_map. apply nth_error_Some. rewrite Hm. discriminate.
  - rewrite !nth_error_map, Hl, Hm. cbn. f_equal. symmetry. exact Hx.
Qed.

Lemma basisDen_nonzero (l : nat) (pl : Point.t) :
  nth_error P l = Some pl -> basisDen P l (Point.x pl) <> 0%Z.
Proof.
  intros Hl. unfold basisDen. apply skipProd_nonzero.
  intros m p Hm Hne. cbn in Hne.
  pose proof (distinct_nth l m pl p Hl Hm Hne). lia.
Qed.

(** At the node [x_l] the formula gives [y_l]: the term of index [l]
    is [y_l], every other term vanishes. *)
Lemma lagrangeSum_node (l : nat) (pl : Point.t) :
  nth_error P l = Some pl ->
  forall rest i,
    (forall m p, nth_error rest m = Some p ->
                 nth_error P (i + m) = Some p) ->
    lagrangeSum P (Point.x pl) i rest ==
      if ((i <=? l) && (l <? i + List.length rest))%nat
      then inject_Z (Point.y pl) else 0.
Proof.
  intros Hl. induction rest as [|p rest IH]; intros i Hrest.
  - cbn [lagrangeSum List.length].
    destruct (i <=? l)%nat eqn:E1, (l <? i + 0)%nat eqn:E2;
      try reflexivity.
    apply Nat.leb_le in E1. apply Nat.ltb_lt in E2. lia.
  - cbn [lagrangeSum List.length].
    assert (Hp : nth_error P i = Some p).
    { rewrite <- (Nat.add_0_r i). apply Hrest. reflexivity. }
    rewrite (IH (S i)).
    2:{ intros m q Hm. replace (S i + m)%nat with (i + S m)%nat by lia.
        apply Hrest. exact Hm. }
    destruct (Nat.eq_dec i l) as [Heq|Hne].
    + subst i. rewrite Hl in Hp. injection Hp as <-.
      replace ((S l <=? l)%nat) with false
        by (symmetry; apply Nat.leb_gt; lia).
      replace ((l <=? l)%nat) with true
        by (symmetry; apply Nat.leb_le; lia).
      replace ((l <? l + S (List.length rest))%nat) with true
        by (symmetry; apply Nat.ltb_lt; lia).
      cbn [andb].
      change (basisNum P l (Point.x pl)) with (basisDen P l (Point.x pl)).
      rewrite inject_Z_mult. field.
      apply inject_Z_nonzero, basisDen_nonzero, Hl.
    + assert (Hz : basisNum P i (Point.x pl) = 0%Z).
      { unfold basisNum. apply (skipProd_zero _ i P 0%nat l pl).
        - exact Hl.
        - cbn. lia.
        - lia. }
      rewrite Hz, Z.mul_0_r.
      assert (Hb : ((i <=? l) && (l <? i + S (List.length rest)))%nat
                   = ((S i <=? l) && (l <? S i + List.length rest))%nat).
      { destruct (Nat.leb_spec i l), (Nat.leb_spec (S i) l),
          (Nat.ltb_spec l (i + S (List.length rest))),
          (Nat.ltb_spec l (S i + List.length rest));
          try reflexivity; lia. }
      rewrite Hb. unfold Qdiv. change (inject_Z 0) with 0. ring.
Qed.

(** Lagrange interpolation at 0: on samples of a polynomial with at most
    as many coefficients as there are points, the formula is the
    constant term. *)
Lemma lagrangeSum_zero (coeffs : list Z) :
  (List.length coeffs <= List.length P)%nat ->
  (forall p, In p P -> Point.y p = polyEval coeffs (Point.x p)) ->
  lagrangeSum P 0 0 P == inject_Z (polyEval coeffs 0).
Proof.
  intros Hlen Hon.
  assert (Hzero : forall t,
            lagrangeSum P t 0 P + (- (1)) * inject_Z (polyEval coeffs t) == 0).
  { apply (polyFun_roots (List.length P) _ (map Point.x P)).
    - apply polyFun_add.
      + apply polyFun_lagrangeSum. cbn. lia.
      + apply polyFun_scale.
        apply (polyFun_le (List.length coeffs)); [assumption|].
        apply polyFun_polyEval.
    - rewrite length_map. lia.
    - exact P_distinct.
    - intros r Hin. apply in_map_iff in Hin.
      destruct Hin as (pl & <- & Hin).
      destruct (In_nth_error _ _ Hin) as [l Hl].
      rewrite (lagrangeSum_node l pl Hl P 0%nat (fun m p H => H)).
      assert (l < List.length P)%nat
        by (apply nth_error_Some; rewrite Hl; discriminate).
      replace ((0 <=? l)%nat) with true by reflexivity.
      replace ((l <? 0 + List.length P)%nat) with true
        by (symmetry; apply Nat.ltb_lt; lia).
      cbn [andb]. rewrite (Hon pl Hin). ring. }
  specialize (Hzero 0%Z).
  rewrite <- (Qplus_0_l (inject_Z (polyEval coeffs 0))), <- Hzero. ring.
Qed.

End Lagrange.

(** ** The value the loop accumulates *)

Lemma Qval_constructor (a b : Z) (f : Fraction.t) :
  Fraction.constructor a b = Ok f -> (Qval f == inject_Z a / inject_Z b)%Q.
Proof.
  intros H. destruct (constructor_Ok_inv a b f H) as (Hb & [Hd _] & Hval).
  unfold Qval.
  assert (Hq : (inject_Z (Fraction.n f) * inject_Z b
                == inject_Z a * inject_Z (Fraction.d f))%Q).
  { rewrite <- !inject_Z_mult, Hval. reflexivity. }
  assert (Hb' : ~ (inject_Z b == 0)%Q) by (apply inject_Z_nonzero; exact Hb).
  assert (Hd' : ~ (inject_Z (Fraction.d f) == 0)%Q)
    by (apply inject_Z_nonzero; lia).
  apply (Qmult_inj_r _ _ (inject_Z b * inject_Z (Fraction.d f))%Q).
  - intros Hz. apply Qmult_integral in Hz. tauto.
  - transitivity (inject_Z (Fraction.n f) * inject_Z b)%Q; [field; assumption|].
    rewrite Hq. field; assumption.
Qed.

Lemma Qval_add (a b f : Fraction.t) :
  0 < Fraction.d a -> 0 < Fraction.d b -> Fraction.add a b = Ok f ->
  (Qval f == Qval a + Qval b)%Q.
Proof.
  intros Ha Hb H. unfold Fraction.add in H.
  rewrite (Qval_constructor _ _ _ H). unfold Qval.
  rewrite inject_Z_plus, !inject_Z_mult.
  field. split; apply inject_Z_nonzero; lia.
Qed.

Lemma reconstruct_loop_noReduce_value (P rest : list Point.t) :
  forall i sum s',
    0 < Fraction.d sum ->
    reconstruct_loop_noReduce P i rest sum = Ok s' ->
    (Qval s' == Qval sum + lagrangeSum P 0 i rest)%Q.
Proof.
  induction rest as [|p rest IH]; intros i sum s' Hsum H.
  - cbn in H. injection H as <-. cbn [lagrangeSum]. ring.
  - rewrite reconstruct_loop_noReduce_step in H.
    destruct (Fraction.constructor (Point.y p * basisNum P i 0)
                (basisDen P i (Point.x p))) as [term|e] eqn:Hterm;
      [|discriminate].
    cbn [bind] in H.
    destruct (Fraction.add sum term) as [sum'|e] eqn:Hadd; [|discriminate].
    cbn [bind] in H.
    destruct (constructor_Ok_inv _ _ _ Hterm) as (_ & [Hdt _] & _).
    assert (Hadd' := Hadd). unfold Fraction.add in Hadd'.
    destruct (constructor_Ok_inv _ _ _ Hadd') as (_ & [Hds _] & _).
    rewrite (IH (S i) sum' s' Hds H).
    rewrite (Qval_add sum term sum' Hsum Hdt Hadd).
    rewrite (Qval_constructor _ _ _ Hterm).
    cbn [lagrangeSum]. ring.
Qed.

(** An accumulated fraction whose value is the integer [v] passes the
    exactness gate and yields [v]. *)
Lemma toBigIntExact_integer (f : Fraction.t) (v : Z) :
  0 < Fraction.d f -> (Qval f == inject_Z v)%Q ->
  Fraction.toBigIntExact f = Ok v.
Proof.
  intros Hd Hv. unfold Qval in Hv.
  assert (Hn : Fraction.n f = v * Fraction.d f).
  { apply inject_Z_injective. rewrite inject_Z_mult, <- Hv.
    field. apply inject_Z_nonzero. lia. }
  unfold Fraction.toBigIntExact.
  rewrite bigRem_ok by lia. cbn [bind].
  rewrite bigDiv_ok by lia.
  rewrite Hn, Z.rem_mul, Z.quot_mul by lia. reflexivity.
Qed.

(** C1: For every polynomial [f] with integer coefficients, of degree [d]
    (the coefficient list has [d + 1] entries), and every list of [k]
    sample points [(x_i, f(x_i))] with pairwise-distinct [x_i] and
    [k >= d + 1], [reconstructAtZero] with threshold [k] returns the
    constant term [f(0)].  On the samples (1,10), (2,19), (3,32) of
    [2x^2 + 3x + 5] with [k = 3] it returns 5. *)
Theorem reconstructAtZero_roundtrip :
  (forall coeffs points k,
     k = Z.of_nat (List.length points) ->
     (List.length coeffs <= List.length points)%nat ->
     distinctX points ->
     (forall p, In p points -> Point.y p = polyEval coeffs (Point.x p)) ->
     reconstructAtZero points k = Ok (polyEval coeffs 0) /\
     polyEval coeffs 0 = hd 0 coeffs) /\
  map (polyEval [5; 3; 2]) [1; 2; 3] = [10; 19; 32] /\
  reconstructAtZero [Point.mk 1 10; Point.mk 2 19; Point.mk 3 32] 3 = Ok 5.
Proof.
  split; [|split; vm_compute; reflexivity].
  intros coeffs points k Hk Hlen Hdist Hon. split.
  - rewrite reconstructAtZero_noReduce_eq.
    unfold reconstructAtZero_noReduce.
    rewrite slice0_firstn by lia.
    rewrite Hk, Nat2Z.id, firstn_all.
    rewrite fromBigInt_zero. cbn [bind].
    destruct (reconstruct_loop_noReduce_cases points points 0%nat
                (Fraction.mk 0 1) ltac:(cbn; lia))
      as [(s' & Hs' & Hd & _)|(_ & m & p & Hm & Hz)].
    + rewrite Hs'. cbn [bind].
      apply toBigIntExact_integer; [assumption|].
      rewrite (reconstruct_loop_noReduce_value points points 0%nat
                 (Fraction.mk 0 1) s' ltac:(cbn; lia) Hs').
      rewrite (lagrangeSum_zero points Hdist coeffs Hlen Hon).
      unfold Qval; cbn [Fraction.n Fraction.d]. field.
    + exfalso. cbn in Hz.
      exact (basisDen_nonzero points Hdist m p Hm Hz).
  - destruct coeffs as [|c coeffs]; cbn; [reflexivity|ring].
Qed.

Lemma reconstructAtZero_roundtrip_witness :
  reconstructAtZero
    [Point.mk (-1) 4; Point.mk 2 19; Point.mk 3 32; Point.mk 5 70] 4
  = Ok (polyEval [5; 3; 2] 0).
Proof.
  apply (proj1 reconstructAtZero_roundtrip [5; 3; 2]
           [Point.mk (-1) 4; Point.mk 2 19; Point.mk 3 32; Point.mk 5 70] 4).
  - reflexivity.
  - cbn. lia.
  - unfold distinctX. cbn.
    repeat constructor; cbn; intuition discriminate.
  - cbn. intros p [H|[H|[H|[H|[]]]]]; subst p; reflexivity.
Defined.


(** * Further properties of the code *)

(** ** bigGcd *)

(** X1: [bigGcd] returns the greatest common divisor of its operands,
    whatever their signs: a non-negative common divisor that every common
    divisor divides; it is 0 only for two zero operands. *)
Theorem bigGcd_greatest_common_divisor :
  forall a b,
    bigGcd a b = Z.gcd a b /\
    0 <= bigGcd a b /\
    (bigGcd a b | a) /\ (bigGcd a b | b) /\
    (forall c, (c | a) -> (c | b) -> (c | bigGcd a b)) /\
    (bigGcd a b = 0 <-> a = 0 /\ b = 0).
Proof.
  intros a b. rewrite bigGcd_gcd.
  split; [reflexivity|].
  split; [apply Z.gcd_nonneg|].
  split; [apply Z.gcd_divide_l|].
  split; [apply Z.gcd_divide_r|].
  split; [intros c Ha Hb; apply Z.gcd_greatest; assumption|].
  apply Z.gcd_eq_0.
Qed.

(** ** Fraction: one representation per rational *)

Lemma normalized_unique (f g : Fraction.t) :
  normalized f -> normalized g ->
  Fraction.n f * Fraction.d g = Fraction.n g * Fraction.d f ->
  f = g.
Proof.
  destruct f as [fn fd], g as [gn gd]. unfold normalized.
  cbn [Fraction.n Fraction.d]. rewrite !Z.gcd_abs_l.
  intros [Hfd Hf] [Hgd Hg] Hcross.
  assert (Hd : fd = gd).
  { apply Z.divide_antisym_nonneg; try lia.
    - apply (Z.gauss fd fn gd).
      + exists gn. lia.
      + rewrite Z.gcd_comm. exact Hf.
    - apply (Z.gauss gd gn fd).
      + exists fn. lia.
      + rewrite Z.gcd_comm. exact Hg. }
  subst gd. f_equal.
  apply (Z.mul_reg_r _ _ fd); lia.
Qed.

Lemma Qval_eq_cross (f g : Fraction.t) :
  0 < Fraction.d f -> 0 < Fraction.d g ->
  ((Qval f == Qval g)%Q <->
   Fraction.n f * Fraction.d g = Fraction.n g * Fraction.d f).
Proof.
  intros Hf Hg. unfold Qval.
  assert (Hf' : ~ (inject_Z (Fraction.d f) == 0)%Q)
    by (apply inject_Z_nonzero; lia).
  assert (Hg' : ~ (inject_Z (Fraction.d g) == 0)%Q)
    by (apply inject_Z_nonzero; lia).
  split.
  - intros H. apply inject_Z_injective. rewrite !inject_Z_mult.
    transitivity (inject_Z (Fraction.n f) / inject_Z (Fraction.d f)
                  * (inject_Z (Fraction.d f) * inject_Z (Fraction.d g)))%Q;
      [field; assumption|].
    rewrite H. field; assumption.
  - intros H.
    assert (Hq : (inject_Z (Fraction.n f) * inject_Z (Fraction.d g)
                  == inject_Z (Fraction.n g) * inject_Z (Fraction.d f))%Q).
    { rewrite <- !inject_Z_mult, H. reflexivity. }
    transitivity (inject_Z (Fraction.n f) * inject_Z (Fraction.d g)
                  / (inject_Z (Fraction.d f) * inject_Z (Fraction.d g)))%Q;
      [field; split; assumption|].
    rewrite Hq. field; split; assumption.
Qed.

Lemma normalized_Qval_unique (f g : Fraction.t) :
  normalized f -> normalized g -> (Qval f == Qval g)%Q -> f = g.
Proof.
  intros Hf Hg H. apply normalized_unique; try assumption.
  apply Qval_eq_cross; [apply Hf|apply Hg|exact H].
Qed.

Lemma constructor_normalized_id (f : Fraction.t) :
  normalized f -> Fraction.constructor (Fraction.n f) (Fraction.d f) = Ok f.
Proof.
  intros [Hd Hg]. rewrite Z.gcd_abs_l in Hg.
  rewrite constructor_pos by assumption.
  rewrite Hg, !Z.quot_1_r. destruct f; reflexivity.
Qed.

(** X2: Two constructions on non-zero denominators return the same
    Fraction exactly when they denote the same rational, [a/b = c/d], that
    is when [a * d = c * b]. *)
Theorem constructor_canonical :
  forall a b c d,
    b <> 0 -> d <> 0 ->
    (Fraction.constructor a b = Fraction.constructor c d <-> a * d = c * b).
Proof.
  intros a b c d Hb Hd.
  destruct (constructor_spec a b Hb) as (f & Hf & Hnf & Hvf).
  destruct (constructor_spec c d Hd) as (g & Hg & Hng & Hvg).
  rewrite Hf, Hg.
  assert (Hfd : 0 < Fraction.d f) by apply Hnf.
  assert (Hgd : 0 < Fraction.d g) by apply Hng.
  split.
  - intros Heq. injection Heq as <-.
    apply (Z.mul_reg_r _ _ (Fraction.d f)); [lia|].
    transitivity (Fraction.n f * b * d); [rewrite Hvf; ring|].
    transitivity (Fraction.n f * d * b); [ring|rewrite Hvg; ring].
  - intros Hcross. f_equal. apply normalized_unique; try assumption.
    apply (Z.mul_reg_r _ _ (b * d)); [nia|].
    transitivity ((Fraction.n f * b) * (Fraction.d g * d)); [ring|].
    rewrite Hvf.
    transitivity ((a * d) * (Fraction.d f * Fraction.d g)); [ring|].
    rewrite Hcross.
    transitivity ((Fraction.n g * d) * (Fraction.d f * b)); [|ring].
    rewrite Hvg. ring.
Qed.

Lemma constructor_canonical_witness :
  Fraction.constructor 6 (-4) = Fraction.constructor (-9) 6.
Proof.
  apply (constructor_canonical 6 (-4) (-9) 6); lia.
Defined.

(** X3: The constructor raises exactly on a zero denominator, and then the
    zero-denominator error: its two divisions by the gcd never divide by
    zero. *)
Theorem constructor_fails_only_on_zero :
  forall n0 d0 e,
    Fraction.constructor n0 d0 = Err e <-> d0 = 0 /\ e = ZeroDenominator.
Proof.
  intros n0 d0 e. split.
  - apply constructor_Err_inv.
  - intros [-> ->]. apply constructor_zero.
Qed.

(** ** Fraction: exact arithmetic *)

Lemma Qval_mul (a b f : Fraction.t) :
  0 < Fraction.d a -> 0 < Fraction.d b -> Fraction.mul a b = Ok f ->
  (Qval f == Qval a * Qval b)%Q.
Proof.
  intros Ha Hb H. unfold Fraction.mul in H.
  rewrite (Qval_constructor _ _ _ H). unfold Qval.
  rewrite !inject_Z_mult.
  field. split; apply inject_Z_nonzero; lia.
Qed.

Lemma add_positive (a b : Fraction.t) :
  0 < Fraction.d a -> 0 < Fraction.d b ->
  exists f, Fraction.add a b = Ok f /\ normalized f.
Proof.
  intros Ha Hb. unfold Fraction.add.
  destruct (constructor_spec
              (Fraction.n a * Fraction.d b + Fraction.n b * Fraction.d a)
              (Fraction.d a * Fraction.d b) ltac:(nia)) as (f & Hf & Hn & _).
  exists f. auto.
Qed.

Lemma mul_positive (a b : Fraction.t) :
  0 < Fraction.d a -> 0 < Fraction.d b ->
  exists f, Fraction.mul a b = Ok f /\ normalized f.
Proof.
  intros Ha Hb. unfold Fraction.mul.
  destruct (constructor_spec (Fraction.n a * Fraction.n b)
              (Fraction.d a * Fraction.d b) ltac:(nia)) as (f & Hf & Hn & _).
  exists f. auto.
Qed.

(** X4: On operands with positive denominators, [add] and [mul] return a
    Fraction, and its rational value is exactly the sum, respectively the
    product, of the operands' values: nothing is rounded. *)
Theorem fraction_arithmetic_exact :
  forall a b,
    0 < Fraction.d a -> 0 < Fraction.d b ->
    (exists s, Fraction.add a b = Ok s /\ (Qval s == Qval a + Qval b)%Q) /\
    (exists p, Fraction.mul a b = Ok p /\ (Qval p == Qval a * Qval b)%Q).
Proof.
  intros a b Ha Hb. split.
  - destruct (add_positive a b Ha Hb) as (s & Hs & _).
    exists s. split; [exact Hs|]. apply Qval_add; assumption.
  - destruct (mul_positive a b Ha Hb) as (p & Hp & _).
    exists p. split; [exact Hp|]. apply Qval_mul; assumption.
Qed.

Lemma fraction_arithmetic_exact_witness :
  exists s, Fraction.add (Fraction.mk 1 6) (Fraction.mk 1 3) = Ok s /\
            (Qval s == Qval (Fraction.mk 1 6) + Qval (Fraction.mk 1 3))%Q.
Proof.
  apply (fraction_arithmetic_exact (Fraction.mk 1 6) (Fraction.mk 1 3));
    cbn; lia.
Defined.

(** X5: [add] and [mul] are commutative, and on operands with positive
    denominators associative, as equalities of the returned Fractions
    (numerator and denominator, not only the value); [mul] distributes
    over [add]. *)
Theorem fraction_arithmetic_laws :
  (forall a b, Fraction.add a b = Fraction.add b a) /\
  (forall a b, Fraction.mul a b = Fraction.mul b a) /\
  (forall a b c,
     0 < Fraction.d a -> 0 < Fraction.d b -> 0 < Fraction.d c ->
     (ab <- Fraction.add a b ;; Fraction.add ab c)
     = (bc <- Fraction.add b c ;; Fraction.add a bc) /\
     (ab <- Fraction.mul a b ;; Fraction.mul ab c)
     = (bc <- Fraction.mul b c ;; Fraction.mul a bc) /\
     (bc <- Fraction.add b c ;; Fraction.mul a bc)
     = (ab <- Fraction.mul a b ;; ac <- Fraction.mul a c ;;
        Fraction.add ab ac)).
Proof.
  split; [|split].
  - intros a b. unfold Fraction.add. f_equal; ring.
  - intros a b. unfold Fraction.mul. f_equal; ring.
  - intros a b c Ha Hb Hc.
    destruct (add_positive a b Ha Hb) as (ab & Hab & Nab).
    destruct (add_positive b c Hb Hc) as (bc & Hbc & Nbc).
    destruct (mul_positive a b Ha Hb) as (mab & Hmab & Nmab).
    destruct (mul_positive b c Hb Hc) as (mbc & Hmbc & Nmbc).
    destruct (mul_positive a c Ha Hc) as (mac & Hmac & Nmac).
    assert (Dab : 0 < Fraction.d ab) by apply Nab.
    assert (Dbc : 0 < Fraction.d bc) by apply Nbc.
    assert (Dmab : 0 < Fraction.d mab) by apply Nmab.
    assert (Dmbc : 0 < Fraction.d mbc) by apply Nmbc.
    assert (Dmac : 0 < Fraction.d mac) by apply Nmac.
    rewrite Hab, Hbc, Hmab, Hmbc, Hmac. cbn [bind].
    pose proof (Qval_add _ _ _ Ha Hb Hab) as Vab.
    pose proof (Qval_add _ _ _ Hb Hc Hbc) as Vbc.
    pose proof (Qval_mul _ _ _ Ha Hb Hmab) as Vmab.
    pose proof (Qval_mul _ _ _ Hb Hc Hmbc) as Vmbc.
    pose proof (Qval_mul _ _ _ Ha Hc Hmac) as Vmac.
    repeat split.
    + destruct (add_positive ab c Dab Hc) as (l & Hl & Nl).
      destruct (add_positive a bc Ha Dbc) as (r & Hr & Nr).
      rewrite Hl, Hr. f_equal. apply normalized_Qval_unique; try assumption.
      rewrite (Qval_add _ _ _ Dab Hc Hl), (Qval_add _ _ _ Ha Dbc Hr).
      rewrite Vab, Vbc. ring.
    + destruct (mul_positive mab c Dmab Hc) as (l & Hl & Nl).
      destruct (mul_positive a mbc Ha Dmbc) as (r & Hr & Nr).
      rewrite Hl, Hr. f_equal. apply normalized_Qval_unique; try assumption.
      rewrite (Qval_mul _ _ _ Dmab Hc Hl), (Qval_mul _ _ _ Ha Dmbc Hr).
      rewrite Vmab, Vmbc. ring.
    + destruct (mul_positive a bc Ha Dbc) as (l & Hl & Nl).
      destruct (add_positive mab mac Dmab Dmac) as (r & Hr & Nr).
      rewrite Hl, Hr. f_equal. apply normalized_Qval_unique; try assumption.
      rewrite (Qval_mul _ _ _ Ha Dbc Hl), (Qval_add _ _ _ Dmab Dmac Hr).
      rewrite Vbc, Vmab, Vmac. ring.
Qed.

Lemma fraction_arithmetic_laws_witness :
  (ab <- Fraction.add (Fraction.mk 1 2) (Fraction.mk 1 3) ;;
   Fraction.add ab (Fraction.mk 1 6))
  = (bc <- Fraction.add (Fraction.mk 1 3) (Fraction.mk 1 6) ;;
     Fraction.add (Fraction.mk 1 2) bc).
Proof.
  apply (proj2 (proj2 fraction_arithmetic_laws)
           (Fraction.mk 1 2) (Fraction.mk 1 3) (Fraction.mk 1 6));
    cbn; lia.
Defined.

(** X6: [0/1] is neutral for [add] and [1/1] for [mul] on normalized
    Fractions, and constructing a Fraction again from the numerator and
    denominator of a normalized one returns it unchanged. *)
Theorem fraction_neutral_elements :
  forall f,
    normalized f ->
    Fraction.constructor (Fraction.n f) (Fraction.d f) = Ok f /\
    Fraction.add f (Fraction.mk 0 1) = Ok f /\
    Fraction.add (Fraction.mk 0 1) f = Ok f /\
    Fraction.mul f (Fraction.mk 1 1) = Ok f /\
    Fraction.mul (Fraction.mk 1 1) f = Ok f.
Proof.
  intros f Hf. pose proof (constructor_normalized_id f Hf) as Hid.
  unfold Fraction.add, Fraction.mul. cbn [Fraction.n Fraction.d].
  repeat split; try exact Hid;
    (etransitivity; [|exact Hid]); f_equal; ring.
Qed.

Lemma fraction_neutral_elements_witness :
  Fraction.add (Fraction.mk (-3) 7) (Fraction.mk 0 1) = Ok (Fraction.mk (-3) 7).
Proof.
  apply (fraction_neutral_elements (Fraction.mk (-3) 7)).
  unfold normalized. cbn. split; [lia|reflexivity].
Defined.

(** X7: [fromBigInt(x)] is [x/1] and [toBigIntExact] gives [x] back; on a
    normalized Fraction, [toBigIntExact] succeeds exactly when the
    denominator is 1, and then returns the numerator. *)
Theorem fromBigInt_toBigIntExact :
  (forall v, Fraction.fromBigInt v = Ok (Fraction.mk v 1) /\
             (f <- Fraction.fromBigInt v ;; Fraction.toBigIntExact f) = Ok v) /\
  (forall f v, normalized f ->
     (Fraction.toBigIntExact f = Ok v <-> f = Fraction.mk v 1)).
Proof.
  split.
  - intros v.
    assert (H : Fraction.fromBigInt v = Ok (Fraction.mk v 1)).
    { unfold Fraction.fromBigInt. rewrite constructor_pos by lia.
      rewrite Z.gcd_1_r, !Z.quot_1_r. reflexivity. }
    split; [exact H|]. rewrite H. cbn [bind].
    apply toBigIntExact_integer; [cbn; lia|].
    unfold Qval. cbn [Fraction.n Fraction.d]. field.
  - intros [fn fd] v [Hd Hg]. cbn [Fraction.n Fraction.d] in *.
    rewrite Z.gcd_abs_l in Hg.
    unfold Fraction.toBigIntExact. cbn [Fraction.n Fraction.d].
    rewrite bigRem_ok, bigDiv_ok by lia. cbn [bind].
    split.
    + intros H.
      destruct (Z.eqb_spec (Z.rem fn fd) 0) as [Hr|Hr]; cbn [negb] in H;
        [|discriminate].
      injection H as <-.
      assert (Hdiv : (fd | fn)) by (apply Z.rem_divide; [lia|exact Hr]).
      assert (H1 : (fd | 1)).
      { rewrite <- Hg. apply Z.gcd_greatest; [exact Hdiv|apply Z.divide_refl]. }
      assert (fd = 1).
      { apply Z.divide_1_r_nonneg in H1; lia. }
      subst fd. rewrite Z.quot_1_r. reflexivity.
    + intros H. injection H as -> ->.
      rewrite Z.rem_1_r, Z.quot_1_r. reflexivity.
Qed.

Lemma fromBigInt_toBigIntExact_witness :
  Fraction.toBigIntExact (Fraction.mk 5 1) = Ok 5 <->
  Fraction.mk 5 1 = Fraction.mk 5 1.
Proof.
  apply (proj2 fromBigInt_toBigIntExact (Fraction.mk 5 1) 5).
  unfold normalized. cbn. split; [lia|reflexivity].
Defined.

(** ** parseInBase: range, uniqueness, composition *)

Lemma classify_digit_range (ch : ascii) (digit : Z) :
  classify ch = IsDigit digit -> 0 <= digit <= 35.
Proof.
  unfold classify. intros H.
  destruct ((48 <=? code ch) && (code ch <=? 57)) eqn:E1.
  - injection H as <-. apply andb_true_iff in E1. destruct E1 as [E1 E2].
    apply Z.leb_le in E1, E2. lia.
  - destruct ((97 <=? code ch) && (code ch <=? 122)) eqn:E2.
    + assert (Hd : digit = 10 + code ch - 97) by congruence.
      apply andb_true_iff in E2. destruct E2 as [E2 E3].
      apply Z.leb_le in E2, E3. lia.
    + destruct (code ch =? 32); discriminate H.
Qed.

Lemma digitsOf_readable (b : Z) (chars : list ascii) :
  readable b chars = true ->
  Forall (fun digit => 0 <= digit < b) (digitsOf chars).
Proof.
  induction chars as [|ch rest IH]; intros Hr; cbn.
  - constructor.
  - cbn in Hr. apply andb_true_iff in Hr. destruct Hr as [Hch Hrest].
    unfold readableChar in Hch.
    destruct (classify ch) as [digit| |] eqn:Hc; try discriminate.
    + constructor; [|apply IH; assumption].
      apply classify_digit_range in Hc. apply Z.ltb_lt in Hch. lia.
    + apply IH; assumption.
Qed.

Lemma positional_bound (b : Z) (digits : list Z) :
  Forall (fun digit => 0 <= digit < b) digits ->
  0 <= positional b digits < b ^ Z.of_nat (List.length digits).
Proof.
  induction 1 as [|digit rest Hd Hrest IH]; cbn [positional List.length].
  - cbn. lia.
  - rewrite Nat2Z.inj_succ, Z.pow_succ_r by lia.
    assert (0 < b ^ Z.of_nat (List.length rest)) by (apply Z.pow_pos_nonneg; lia).
    nia.
Qed.

Lemma positional_app (b : Z) (ds1 ds2 : list Z) :
  positional b (ds1 ++ ds2)
  = positional b ds1 * b ^ Z.of_nat (List.length ds2) + positional b ds2.
Proof.
  induction ds1 as [|digit ds1 IH]; cbn [positional app].
  - ring.
  - rewrite IH, length_app, Nat2Z.inj_add, Z.pow_add_r by lia. ring.
Qed.

Lemma positional_inj (b : Z) (ds1 : list Z) :
  forall ds2,
    Forall (fun digit => 0 <= digit < b) ds1 ->
    Forall (fun digit => 0 <= digit < b) ds2 ->
    List.length ds1 = List.length ds2 ->
    positional b ds1 = positional b ds2 ->
    ds1 = ds2.
Proof.
  induction ds1 as [|d1 r1 IH]; intros [|d2 r2] H1 H2 Hlen Hpos;
    try discriminate; [reflexivity|].
  inversion H1 as [|? ? Hd1 Hr1]; subst.
  inversion H2 as [|? ? Hd2 Hr2]; subst.
  cbn [positional List.length] in *. injection Hlen as Hlen.
  pose proof (positional_bound b r1 Hr1) as B1.
  pose proof (positional_bound b r2 Hr2) as B2.
  rewrite <- Hlen in Hpos, B2.
  destruct (Z.div_mod_unique (b ^ Z.of_nat (List.length r1)) d1 d2
              (positional b r1) (positional b r2)) as [Hq Hr];
    [left; exact B1|left; exact B2|lia|].
  subst d2. f_equal. apply IH; assumption.
Qed.

Lemma parseInBase_Ok_readable (str : string) (base v : Z) :
  parseInBase str base = Ok v -> readable base (prepared str) = true.
Proof.
  intros H.
  pose proof (parseInBase_loop_cases base base (prepared str) 0) as Hcases.
  unfold parseInBase in H. fold (prepared str) in H.
  rewrite H in Hcases. exact Hcases.
Qed.

Lemma parseInBase_Ok_digits (str : string) (base v : Z) :
  parseInBase str base = Ok v ->
  v = positional base (digitsOf (prepared str)) /\
  Forall (fun digit => 0 <= digit < base) (digitsOf (prepared str)).
Proof.
  intros H.
  pose proof (parseInBase_Ok_readable str base v H) as Hr.
  rewrite (parseInBase_positional str base Hr) in H. injection H as <-.
  split; [reflexivity|apply digitsOf_readable; exact Hr].
Qed.

(** X8: A value returned by [parseInBase] is never negative and is below
    [base ^ m], where [m] counts the digits read; it is the positional
    value of those digits, each of which lies in [0, base). *)
Theorem parseInBase_range :
  forall str base v,
    parseInBase str base = Ok v ->
    0 <= v < base ^ Z.of_nat (List.length (digitsOf (prepared str))) /\
    v = positional base (digitsOf (prepared str)) /\
    Forall (fun digit => 0 <= digit < base) (digitsOf (prepared str)).
Proof.
  intros str base v H.
  destruct (parseInBase_Ok_digits str base v H) as [Hv Hd].
  split; [rewrite Hv; apply positional_bound; exact Hd|].
  split; assumption.
Qed.

Lemma parseInBase_range_witness :
  0 <= 255 < 16 ^ Z.of_nat (List.length (digitsOf (prepared "Ff"))).
Proof.
  apply (parseInBase_range "Ff"%string 16 255). vm_compute. reflexivity.
Defined.

(** X9: Decoding is injective on the digits: two strings that decode, in
    the same base, to the same value through the same number of digits
    have the same digit sequence. *)
Theorem parseInBase_injective :
  forall s1 s2 base v,
    parseInBase s1 base = Ok v -> parseInBase s2 base = Ok v ->
    List.length (digitsOf (prepared s1)) = List.length (digitsOf (prepared s2)) ->
    digitsOf (prepared s1) = digitsOf (prepared s2).
Proof.
  intros s1 s2 base v H1 H2 Hlen.
  destruct (parseInBase_Ok_digits s1 base v H1) as (Hv1 & Hd1).
  destruct (parseInBase_Ok_digits s2 base v H2) as (Hv2 & Hd2).
  apply (positional_inj base); try assumption. congruence.
Qed.

Lemma parseInBase_injective_witness :
  digitsOf (prepared "0F f") = digitsOf (prepared " 0ff").
Proof.
  apply (parseInBase_injective "0F f"%string " 0ff"%string 16 255);
    vm_compute; reflexivity.
Defined.

(** *** Trimming and case folding, character by character *)

Lemma isWhiteSpace_toLowerChar (c : ascii) :
  isWhiteSpace (toLowerChar c) = isWhiteSpace c.
Proof.
  destruct c as [[] [] [] [] [] [] [] []]; vm_compute; reflexivity.
Qed.

Lemma whiteSpace_never_digit (c : ascii) :
  isWhiteSpace c = true ->
  classify (toLowerChar c) = IsSpace \/ classify (toLowerChar c) = IsInvalid.
Proof.
  destruct c as [[] [] [] [] [] [] [] []]; vm_compute;
    intros H; try discriminate H; auto.
Qed.

Lemma trimStart_toLowerCase (l : list ascii) :
  trimStart (toLowerCase l) = toLowerCase (trimStart l).
Proof.
  induction l as [|c l IH]; cbn [toLowerCase map trimStart].
  - reflexivity.
  - rewrite isWhiteSpace_toLowerChar.
    destruct (isWhiteSpace c); [exact IH|reflexivity].
Qed.

Lemma trim_toLowerCase (l : list ascii) :
  trim (toLowerCase l) = toLowerCase (trim l).
Proof.
  unfold trim. rewrite trimStart_toLowerCase.
  unfold toLowerCase at 1. rewrite <- map_rev.
  fold (toLowerCase (rev (trimStart l))).
  rewrite trimStart_toLowerCase.
  unfold toLowerCase. rewrite map_rev. reflexivity.
Qed.

(** X10: [parseInBase] is case-insensitive: two strings with the same
    lower-case form decode alike, value or error. *)
Theorem parseInBase_case_insensitive :
  forall s1 s2 base,
    toLowerCase (list_ascii_of_string s1)
      = toLowerCase (list_ascii_of_string s2) ->
    parseInBase s1 base = parseInBase s2 base.
Proof.
  intros s1 s2 base H. unfold parseInBase.
  rewrite <- !trim_toLowerCase, H. reflexivity.
Qed.

Lemma parseInBase_case_insensitive_witness :
  parseInBase "1aF" 16 = parseInBase "1Af" 16.
Proof.
  apply (parseInBase_case_insensitive "1aF"%string "1Af"%string 16).
  vm_compute. reflexivity.
Defined.

Lemma trimStart_split (l : list ascii) :
  exists pre,
    l = pre ++ trimStart l /\ Forall (fun c => isWhiteSpace c = true) pre.
Proof.
  induction l as [|c l IH]; cbn [trimStart].
  - exists []. split; [reflexivity|constructor].
  - destruct (isWhiteSpace c) eqn:Hc.
    + destruct IH as (pre & Heq & Hpre). exists (c :: pre). split.
      * cbn. f_equal. exact Heq.
      * constructor; assumption.
    + exists []. split; [reflexivity|constructor].
Qed.

Lemma trim_split (l : list ascii) :
  exists pre post,
    l = pre ++ trim l ++ post /\
    Forall (fun c => isWhiteSpace c = true) pre /\
    Forall (fun c => isWhiteSpace c = true) post.
Proof.
  destruct (trimStart_split l) as (pre & Hl & Hpre).
  destruct (trimStart_split (rev (trimStart l))) as (tsop & Hr & Hpost).
  exists pre, (rev tsop). split; [|split].
  - unfold trim. rewrite <- rev_app_distr, <- Hr, rev_involutive. exact Hl.
  - exact Hpre.
  - apply Forall_rev. exact Hpost.
Qed.

Lemma digitsOf_app (l1 l2 : list ascii) :
  digitsOf (l1 ++ l2) = digitsOf l1 ++ digitsOf l2.
Proof.
  induction l1 as [|c l1 IH]; cbn [digitsOf app].
  - reflexivity.
  - destruct (classify c); rewrite IH; reflexivity.
Qed.

Lemma digitsOf_whiteSpace (l : list ascii) :
  Forall (fun c => isWhiteSpace c = true) l -> digitsOf (toLowerCase l) = [].
Proof.
  induction 1 as [|c l Hc Hl IH]; cbn [toLowerCase map digitsOf].
  - reflexivity.
  - destruct (whiteSpace_never_digit c Hc) as [-> | ->]; exact IH.
Qed.

Lemma list_ascii_of_string_app (s1 s2 : string) :
  list_ascii_of_string (s1 ++ s2)
  = list_ascii_of_string s1 ++ list_ascii_of_string s2.
Proof.
  induction s1 as [|c s1 IH]; cbn.
  - reflexivity.
  - f_equal. exact IH.
Qed.

Lemma readable_trimmed (base : Z) (l t pre post : list ascii) :
  l = pre ++ t ++ post ->
  Forall (fun c => isWhiteSpace c = true) pre ->
  Forall (fun c => isWhiteSpace c = true) post ->
  readable base (toLowerCase l) = true ->
  readable base (toLowerCase t) = true /\
  digitsOf (toLowerCase l) = digitsOf (toLowerCase t).
Proof.
  intros -> Hpre Hpost Hr.
  unfold toLowerCase, readable in *.
  rewrite !map_app, !forallb_app in Hr.
  apply andb_true_iff in Hr. destruct Hr as [_ Hr].
  apply andb_true_iff in Hr. destruct Hr as [Hr _].
  split; [exact Hr|].
  rewrite !map_app, !digitsOf_app.
  fold (toLowerCase pre). fold (toLowerCase post).
  rewrite (digitsOf_whiteSpace pre Hpre), (digitsOf_whiteSpace post Hpost).
  rewrite app_nil_r. reflexivity.
Qed.

(** Decoding a string all of whose characters, trimmed or not, are spaces
    and digits below the base. *)
Lemma parseInBase_whole (str : string) (base : Z) :
  readable base (toLowerCase (list_ascii_of_string str)) = true ->
  parseInBase str base
  = Ok (positional base (digitsOf (toLowerCase (list_ascii_of_string str)))).
Proof.
  intros Hr.
  destruct (trim_split (list_ascii_of_string str))
    as (pre & post & Hl & Hpre & Hpost).
  destruct (readable_trimmed base _ _ pre post Hl Hpre Hpost Hr) as [Ht Hd].
  rewrite Hd. apply parseInBase_positional. exact Ht.
Qed.

(** X11: Decoding composes over concatenation.  For two strings made of
    spaces and digits below the base, the concatenation decodes to the
    value of the first, shifted by one power of the base per digit of the
    second, plus the value of the second. *)
Theorem parseInBase_concat :
  forall s1 s2 base,
    readable base (toLowerCase (list_ascii_of_string s1)) = true ->
    readable base (toLowerCase (list_ascii_of_string s2)) = true ->
    exists v1 v2,
      parseInBase s1 base = Ok v1 /\ parseInBase s2 base = Ok v2 /\
      parseInBase (s1 ++ s2) base
      = Ok (v1 * base ^ Z.of_nat
                          (List.length
                             (digitsOf (toLowerCase (list_ascii_of_string s2))))
            + v2).
Proof.
  intros s1 s2 base H1 H2.
  eexists. eexists. split; [apply parseInBase_whole; exact H1|].
  split; [apply parseInBase_whole; exact H2|].
  rewrite parseInBase_whole.
  - rewrite list_ascii_of_string_app. unfold toLowerCase.
    rewrite map_app, digitsOf_app, positional_app. reflexivity.
  - rewrite list_ascii_of_string_app. unfold toLowerCase, readable in *.
    rewrite map_app, forallb_app, H1, H2. reflexivity.
Qed.

Lemma parseInBase_concat_witness :
  exists v1 v2,
    parseInBase "1 f" 16 = Ok v1 /\ parseInBase "0A " 16 = Ok v2 /\
    parseInBase ("1 f" ++ "0A ") 16
    = Ok (v1 * 16 ^ Z.of_nat
                      (List.length
                         (digitsOf (toLowerCase (list_ascii_of_string "0A "))))
          + v2).
Proof.
  apply (parseInBase_concat "1 f"%string "0A "%string 16);
    vm_compute; reflexivity.
Defined.

(** ** reconstructAtZero: what it returns, and when *)

Lemma normalized_zero : normalized (Fraction.mk 0 1).
Proof. unfold normalized. cbn. split; [lia|reflexivity]. Qed.

Lemma reconstruct_loop_noReduce_normalized (P rest : list Point.t) :
  forall i sum s',
    normalized sum ->
    reconstruct_loop_noReduce P i rest sum = Ok s' -> normalized s'.
Proof.
  induction rest as [|p rest IH]; intros i sum s' Hsum H.
  - cbn in H. injection H as <-. exact Hsum.
  - rewrite reconstruct_loop_noReduce_step in H.
    destruct (Fraction.constructor (Point.y p * basisNum P i 0)
                (basisDen P i (Point.x p))) as [term|e]; [|discriminate].
    cbn [bind] in H.
    destruct (Fraction.add sum term) as [sum'|e] eqn:Hadd; [|discriminate].
    cbn [bind] in H. unfold Fraction.add in Hadd.
    destruct (constructor_Ok_inv _ _ _ Hadd) as (_ & Hn & _).
    exact (IH (S i) sum' s' Hn H).
Qed.

Lemma nonzero_denominators_distinct (P : list Point.t) :
  (forall m p, nth_error P m = Some p -> basisDen P m (Point.x p) <> 0) ->
  distinctX P.
Proof.
  intros Hall. unfold distinctX. apply NoDup_nth_error.
  intros i j Hi Heq. rewrite length_map in Hi.
  rewrite !nth_error_map in Heq.
  destruct (nth_error P i) as [pi|] eqn:Hpi;
    [|apply nth_error_None in Hpi; lia].
  destruct (nth_error P j) as [pj|] eqn:Hpj; [|discriminate].
  cbn in Heq. injection Heq as Hx.
  destruct (Nat.eq_dec i j) as [|Hne]; [assumption|].
  exfalso. apply (Hall i pi Hpi). unfold basisDen.
  apply (skipProd_zero _ i P 0%nat j pj); [assumption|cbn; lia|lia].
Qed.

Lemma lagrangeSum_at_point (P : list Point.t) (p : Point.t) :
  distinctX P -> In p P ->
  (lagrangeSum P (Point.x p) 0 P == inject_Z (Point.y p))%Q.
Proof.
  intros Hd Hin. destruct (In_nth_error _ _ Hin) as [l Hl].
  rewrite (lagrangeSum_node P Hd l p Hl P 0%nat (fun m q H => H)).
  assert (l < List.length P)%nat
    by (apply nth_error_Some; rewrite Hl; discriminate).
  replace ((0 <=? l)%nat) with true by reflexivity.
  replace ((l <? 0 + List.length P)%nat) with true
    by (symmetry; apply Nat.ltb_lt; lia).
  reflexivity.
Qed.

(** The two ways a run can go: with pairwise-distinct [x] the loop ends on
    the normalized Fraction of Lagrange's sum and the result is its exact
    integer, if any; otherwise the run stops on a zero denominator. *)
Lemma reconstructAtZero_outcome (points : list Point.t) (k : Z) :
  (distinctX (slice0 points k) /\
   exists s,
     normalized s /\
     (Qval s == lagrangeSum (slice0 points k) 0 0 (slice0 points k))%Q /\
     reconstructAtZero points k = Fraction.toBigIntExact s)
  \/
  (~ distinctX (slice0 points k) /\
   reconstructAtZero points k = Err ZeroDenominator).
Proof.
  rewrite reconstructAtZero_noReduce_eq. unfold reconstructAtZero_noReduce.
  set (P := slice0 points k).
  rewrite fromBigInt_zero. cbn [bind].
  destruct (reconstruct_loop_noReduce_cases P P 0%nat (Fraction.mk 0 1)
              ltac:(cbn; lia))
    as [(s & Hs & _ & Hall)|(He & m & p & Hm & Hz)].
  - left. split; [apply nonzero_denominators_distinct; exact Hall|].
    exists s. split; [|split].
    + exact (reconstruct_loop_noReduce_normalized P P 0%nat _ s
               normalized_zero Hs).
    + rewrite (reconstruct_loop_noReduce_value P P 0%nat (Fraction.mk 0 1) s
                 ltac:(cbn; lia) Hs).
      unfold Qval; cbn [Fraction.n Fraction.d]. field.
    + rewrite Hs. reflexivity.
  - right. split.
    + intros Hd. cbn in Hz. exact (basisDen_nonzero P Hd m p Hm Hz).
    + rewrite He. reflexivity.
Qed.

Lemma toBigIntExact_normalized (s : Fraction.t) :
  normalized s ->
  (exists v, Fraction.toBigIntExact s = Ok v /\ Fraction.n s = v * Fraction.d s)
  \/
  (Fraction.toBigIntExact s
   = Err (NonIntegerResult (Fraction.n s) (Fraction.d s)) /\
   1 < Fraction.d s /\ Z.rem (Fraction.n s) (Fraction.d s) <> 0).
Proof.
  intros [Hd _]. unfold Fraction.toBigIntExact.
  rewrite bigRem_ok, bigDiv_ok by lia. cbn [bind].
  destruct (Z.eqb_spec (Z.rem (Fraction.n s) (Fraction.d s)) 0) as [Hr|Hr];
    cbn [negb].
  - left. eexists. split; [reflexivity|].
    pose proof (Z.quot_rem' (Fraction.n s) (Fraction.d s)). lia.
  - right. split; [reflexivity|]. split; [|exact Hr].
    destruct (Z.eq_dec (Fraction.d s) 1) as [H1|H1]; [|lia].
    rewrite H1, Z.rem_1_r in Hr. contradiction.
Qed.

(** X12: With nothing selected (no points at all, or a threshold of 0)
    [reconstructAtZero] returns 0 without error. *)
Theorem reconstructAtZero_nothing_selected :
  (forall k, reconstructAtZero [] k = Ok 0) /\
  (forall points, reconstructAtZero points 0 = Ok 0).
Proof.
  split.
  - intros k. unfold reconstructAtZero, slice0. rewrite firstn_nil.
    vm_compute. reflexivity.
  - intros points. unfold reconstructAtZero.
    rewrite slice0_firstn by lia. cbn [Z.to_nat firstn].
    vm_compute. reflexivity.
Qed.

(** X13: The only errors of [reconstructAtZero] are the zero-denominator
    error, raised exactly when two of the selected points share an [x],
    and the non-integer error, which carries a fraction in lowest terms
    with denominator above 1. *)
Theorem reconstructAtZero_errors :
  forall points k,
    (reconstructAtZero points k = Err ZeroDenominator
     <-> ~ distinctX (slice0 points k)) /\
    (forall e, reconstructAtZero points k = Err e ->
       e = ZeroDenominator \/
       exists n0 d0, e = NonIntegerResult n0 d0 /\ 1 < d0 /\
                     Z.gcd n0 d0 = 1 /\ Z.rem n0 d0 <> 0).
Proof.
  intros points k.
  destruct (reconstructAtZero_outcome points k)
    as [(Hd & s & Hn & _ & Hres)|(Hnd & Hres)]; rewrite Hres.
  - destruct (toBigIntExact_normalized s Hn)
      as [(v & Hv & _)|(He & Hd1 & Hrem)].
    + rewrite Hv. split.
      * split; [discriminate|intros H; contradiction].
      * discriminate.
    + rewrite He. split.
      * split; [discriminate|intros H; contradiction].
      * intros e H. injection H as <-. right.
        exists (Fraction.n s), (Fraction.d s).
        destruct Hn as [_ Hg]. rewrite Z.gcd_abs_l in Hg. auto.
  - split.
    + split; [intros _; exact Hnd|reflexivity].
    + intros e H. injection H as <-. left. reflexivity.
Qed.

(** X14: With pairwise-distinct [x] among the selected points [P],
    Lagrange's sum is the polynomial with at most [|P|] coefficients that
    takes the value [y] at each point's [x], and [reconstructAtZero]
    returns [v] exactly when the value of that polynomial at 0 is the
    integer [v]: a returned value is never rounded. *)
Theorem reconstructAtZero_exact :
  forall points k v,
    distinctX (slice0 points k) ->
    polyFun (List.length (slice0 points k))
      (fun t => lagrangeSum (slice0 points k) t 0 (slice0 points k)) /\
    (forall p, In p (slice0 points k) ->
       (lagrangeSum (slice0 points k) (Point.x p) 0 (slice0 points k)
        == inject_Z (Point.y p))%Q) /\
    (reconstructAtZero points k = Ok v <->
     (lagrangeSum (slice0 points k) 0 0 (slice0 points k) == inject_Z v)%Q).
Proof.
  intros points k v Hd.
  split; [apply polyFun_lagrangeSum; cbn; lia|].
  split; [intros p Hin; apply lagrangeSum_at_point; assumption|].
  destruct (reconstructAtZero_outcome points k)
    as [(_ & s & Hn & Hval & Hres)|(Hnd & _)]; [|contradiction].
  rewrite Hres, <- Hval. split.
  - intros H.
    destruct (toBigIntExact_normalized s Hn)
      as [(v' & Hv & Hnv)|(He & _)]; [|rewrite He in H; discriminate].
    rewrite Hv in H. injection H as ->.
    unfold Qval. rewrite Hnv, inject_Z_mult. field.
    apply inject_Z_nonzero. destruct Hn. lia.
  - intros H. apply toBigIntExact_integer; [apply Hn|exact H].
Qed.

Lemma reconstructAtZero_exact_witness :
  reconstructAtZero [Point.mk 1 3; Point.mk 3 7] 2 = Ok 1 <->
  (lagrangeSum (slice0 [Point.mk 1 3; Point.mk 3 7] 2) 0 0
     (slice0 [Point.mk 1 3; Point.mk 3 7] 2) == inject_Z 1)%Q.
Proof.
  apply (reconstructAtZero_exact [Point.mk 1 3; Point.mk 3 7] 2 1).
  unfold distinctX. cbn.
  repeat constructor; cbn; intuition discriminate.
Defined.

(** X15: The threshold picks the points that count: whenever the selected
    points have pairwise-distinct [x] and lie on a polynomial with integer
    coefficients that has no more coefficients than points were selected,
    the result is its constant term, whatever the points after them are. *)
Theorem reconstructAtZero_threshold :
  forall coeffs points k,
    (List.length coeffs <= List.length (slice0 points k))%nat ->
    distinctX (slice0 points k) ->
    (forall p, In p (slice0 points k) ->
               Point.y p = polyEval coeffs (Point.x p)) ->
    reconstructAtZero points k = Ok (polyEval coeffs 0).
Proof.
  intros coeffs points k Hlen Hd Hon.
  destruct (reconstructAtZero_outcome points k)
    as [(_ & s & Hn & Hval & Hres)|(Hnd & _)]; [|contradiction].
  rewrite Hres. apply toBigIntExact_integer; [apply Hn|].
  rewrite Hval. apply lagrangeSum_zero; assumption.
Qed.

Lemma reconstructAtZero_threshold_witness :
  reconstructAtZero
    [Point.mk 1 10; Point.mk 2 19; Point.mk 3 32; Point.mk 3 0; Point.mk 9 1] 3
  = Ok (polyEval [5; 3; 2] 0).
Proof.
  apply (reconstructAtZero_threshold [5; 3; 2]
           [Point.mk 1 10; Point.mk 2 19; Point.mk 3 32; Point.mk 3 0;
            Point.mk 9 1] 3).
  - vm_compute. lia.
  - unfold distinctX. vm_compute.
    repeat constructor; cbn; intuition discriminate.
  - vm_compute. intros p [H|[H|[H|[]]]]; subst p; reflexivity.
Defined.

(** ** reconstructAtZero: the order of the selected points *)

Lemma lagrangeSum_permutation (P P' : list Point.t) :
  Permutation P P' -> distinctX P ->
  forall t, (lagrangeSum P t 0 P == lagrangeSum P' t 0 P')%Q.
Proof.
  intros Hperm Hd t.
  assert (Hd' : distinctX P').
  { unfold distinctX in *.
    exact (Permutation_NoDup (Permutation_map Point.x Hperm) Hd). }
  assert (Hzero : forall u,
            (lagrangeSum P u 0 P + (- (1)) * lagrangeSum P' u 0 P' == 0)%Q).
  { apply (polyFun_roots (List.length P) _ (map Point.x P)).
    - apply polyFun_add.
      + apply polyFun_lagrangeSum. cbn. lia.
      + apply polyFun_scale. rewrite (Permutation_length Hperm).
        apply polyFun_lagrangeSum. cbn. lia.
    - rewrite length_map. lia.
    - exact Hd.
    - intros r Hin. apply in_map_iff in Hin.
      destruct Hin as (p & <- & Hin).
      rewrite (lagrangeSum_at_point P p Hd Hin).
      rewrite (lagrangeSum_at_point P' p Hd' (Permutation_in p Hperm Hin)).
      ring. }
  specialize (Hzero t).
  rewrite <- (Qplus_0_l (lagrangeSum P' t 0 P')), <- Hzero. ring.
Qed.

Lemma slice0_all {A : Type} (points : list A) :
  slice0 points (Z.of_nat (List.length points)) = points.
Proof.
  rewrite slice0_firstn by lia. rewrite Nat2Z.id. apply firstn_all.
Qed.

(** X16: When every point is used (the threshold is the number of
    points), the order of the points does not matter: any rearrangement
    gives the same result, value or error. *)
Theorem reconstructAtZero_permutation :
  forall P P',
    Permutation P P' ->
    reconstructAtZero P (Z.of_nat (List.length P))
    = reconstructAtZero P' (Z.of_nat (List.length P')).
Proof.
  intros P P' Hperm.
  destruct (reconstructAtZero_outcome P (Z.of_nat (List.length P)))
    as [(Hd & s & Hn & Hval & Hres)|(Hnd & Hres)];
    destruct (reconstructAtZero_outcome P' (Z.of_nat (List.length P')))
      as [(Hd' & s' & Hn' & Hval' & Hres')|(Hnd' & Hres')];
    rewrite Hres, Hres'; rewrite !slice0_all in *.
  - f_equal. apply normalized_Qval_unique; try assumption.
    rewrite Hval, Hval'. apply lagrangeSum_permutation; assumption.
  - exfalso. apply Hnd'. unfold distinctX in *.
    exact (Permutation_NoDup (Permutation_map Point.x Hperm) Hd).
  - exfalso. apply Hnd. unfold distinctX in *.
    exact (Permutation_NoDup
             (Permutation_map Point.x (Permutation_sym Hperm)) Hd').
  - reflexivity.
Qed.

Lemma reconstructAtZero_permutation_witness :
  reconstructAtZero [Point.mk 1 10; Point.mk 2 19; Point.mk 3 32] 3
  = reconstructAtZero [Point.mk 3 32; Point.mk 1 10; Point.mk 2 19] 3.
Proof.
  apply (reconstructAtZero_permutation
           [Point.mk 1 10; Point.mk 2 19; Point.mk 3 32]
           [Point.mk 3 32; Point.mk 1 10; Point.mk 2 19]).
  apply Permutation_sym.
  apply (Permutation_cons_app [Point.mk 1 10; Point.mk 2 19] []).
  apply Permutation_refl.
Defined.

(** ** pointsFromJson: the sort *)

Lemma insertByX_permutation (p : Point.t) (l : list Point.t) :
  Permutation (p :: l) (insertByX p l).
Proof.
  induction l as [|q l IH]; cbn [insertByX].
  - apply Permutation_refl.
  - destruct (Point.x p <=? Point.x q).
    + apply Permutation_refl.
    + apply (perm_trans (perm_swap q p l)). apply perm_skip. exact IH.
Qed.

Lemma sortByX_permutation (l : list Point.t) : Permutation l (sortByX l).
Proof.
  induction l as [|p l IH]; cbn [sortByX fold_right].
  - apply perm_nil.
  - apply (perm_trans (perm_skip p IH)). apply insertByX_permutation.
Qed.

Lemma insertByX_sorted (p : Point.t) (l : list Point.t) :
  StronglySorted ascendingX l -> StronglySorted ascendingX (insertByX p l).
Proof.
  induction 1 as [|q l Hl IH Hq]; cbn [insertByX].
  - constructor; constructor.
  - destruct (Z.leb_spec (Point.x p) (Point.x q)) as [Hle|Hgt].
    + constructor.
      * constructor; assumption.
      * constructor; [exact Hle|].
        apply (Forall_impl (ascendingX p)) with (2 := Hq).
        unfold ascendingX. intros r Hr. lia.
    + constructor; [exact IH|].
      apply (Permutation_Forall (insertByX_permutation p l)).
      constructor; [unfold ascendingX; lia|exact Hq].
Qed.

Lemma sortByX_sorted (l : list Point.t) : StronglySorted ascendingX (sortByX l).
Proof.
  induction l as [|p l IH]; cbn [sortByX fold_right].
  - constructor.
  - apply insertByX_sorted. exact IH.
Qed.

Lemma insertByX_atX (x0 : Z) (p : Point.t) (l : list Point.t) :
  atX x0 (insertByX p l) = atX x0 (p :: l).
Proof.
  unfold atX. induction l as [|q l IH]; cbn [insertByX].
  - reflexivity.
  - destruct (Z.leb_spec (Point.x p) (Point.x q)) as [Hle|Hgt].
    + reflexivity.
    + cbn [filter] in *. rewrite IH.
      destruct (Z.eqb_spec (Point.x p) x0), (Z.eqb_spec (Point.x q) x0);
        try reflexivity.
      lia.
Qed.

Lemma sortByX_atX (x0 : Z) (l : list Point.t) :
  atX x0 (sortByX l) = atX x0 l.
Proof.
  induction l as [|p l IH]; cbn [sortByX fold_right].
  - reflexivity.
  - fold (sortByX l). rewrite insertByX_atX.
    unfold atX in *. cbn [filter]. rewrite IH. reflexivity.
Qed.

Lemma decodeEntries_length (f g : string -> option Z)
    (entries : list (string * Share.t)) (ps : list Point.t) :
  decodeEntries f g entries = Returned ps ->
  List.length ps = List.length entries.
Proof.
  revert ps. induction entries as [|entry rest IH]; intros ps H; cbn in H.
  - injection H as <-. reflexivity.
  - destruct (decodeEntry f g entry) as [p|t]; [|discriminate].
    destruct (decodeEntries f g rest) as [qs|t]; [|discriminate].
    injection H as <-. cbn. f_equal. apply IH. reflexivity.
Qed.

(** X17: When [pointsFromJson] returns, [k] is the one of ["keys"] and the
    points are the decoded entries, all of them, sorted by ascending [x];
    entries of equal [x] keep the order they had. *)
Theorem pointsFromJson_sorted :
  forall (BigInt_string Number_string : string -> option Z) obj k points,
    pointsFromJson BigInt_string Number_string obj = Returned (k, points) ->
    k = Keys.k (keys obj) /\
    StronglySorted ascendingX points /\
    List.length points = List.length (shares obj) /\
    exists entries,
      decodeEntries BigInt_string Number_string (shares obj)
        = Returned entries /\
      Permutation entries points /\
      forall x0, atX x0 points = atX x0 entries.
Proof.
  intros f g obj k points H. unfold pointsFromJson in H.
  destruct (decodeEntries f g (shares obj)) as [entries|t] eqn:Hdec;
    [|discriminate].
  injection H as <- <-.
  split; [reflexivity|]. split; [apply sortByX_sorted|]. split.
  - rewrite <- (Permutation_length (sortByX_permutation entries)).
    apply (decodeEntries_length f g). exact Hdec.
  - exists entries. split; [reflexivity|].
    split; [apply sortByX_permutation|]. intros x0. apply sortByX_atX.
Qed.

Lemma pointsFromJson_sorted_witness :
  StronglySorted ascendingX
    [Point.mk 1 4; Point.mk 2 7; Point.mk 2 5; Point.mk 3 12].
Proof.
  apply (pointsFromJson_sorted decimalString decimalString
           (mkJsonObject (Keys.mk 4 3)
              [("2", Share.mk "10" "7"); ("3", Share.mk "10" "12");
               ("02", Share.mk "16" "5"); ("1", Share.mk "2" "100")]%string)
           3 [Point.mk 1 4; Point.mk 2 7; Point.mk 2 5; Point.mk 3 12]).
  vm_compute. reflexivity.
Defined.

(** ** pointsFromJson and main: errors, order of the entries, end to end *)

Section IngestionProperties.

Variable BigInt_string : string -> option Z.
Variable Number_string : string -> option Z.

Local Abbreviation decodeEntry := (decodeEntry BigInt_string Number_string).
Local Abbreviation decodeEntries := (decodeEntries BigInt_string Number_string).
Local Abbreviation pointsFromJson := (pointsFromJson BigInt_string Number_string).
Local Abbreviation mainParsed := (mainParsed BigInt_string Number_string).

Lemma decodeEntries_Returned (entries : list (string * Share.t))
    (ps : list Point.t) :
  decodeEntries entries = Returned ps <->
  Forall2 (fun entry p => decodeEntry entry = Returned p) entries ps.
Proof.
  revert ps. induction entries as [|entry rest IH]; intros ps; cbn.
  - split.
    + intros H. injection H as <-. constructor.
    + intros H. inversion H. reflexivity.
  - split.
    + intros H.
      destruct (decodeEntry entry) as [p|t] eqn:Hp; [|discriminate].
      destruct (decodeEntries rest) as [qs|t] eqn:Hq; [|discriminate].
      injection H as <-. constructor; [exact Hp|]. apply IH. reflexivity.
    + intros H. inversion H as [|? p ? qs Hp Hq]; subst.
      rewrite Hp. apply IH in Hq. rewrite Hq. reflexivity.
Qed.

Lemma decodeEntries_Threw (entries : list (string * Share.t)) (t : Thrown) :
  decodeEntries entries = Threw t <->
  exists pre entry post,
    entries = pre ++ entry :: post /\
    (exists ps, decodeEntries pre = Returned ps) /\
    decodeEntry entry = Threw t.
Proof.
  induction entries as [|entry rest IH]; cbn.
  - split; [discriminate|].
    intros (pre & e & post & H & _). destruct pre; discriminate.
  - split.
    + intros H. destruct (decodeEntry entry) as [p|t'] eqn:Hp.
      * destruct (decodeEntries rest) as [qs|t''] eqn:Hq; [discriminate|].
        injection H as ->.
        destruct (proj1 IH eq_refl) as (pre & e & post & -> & [ps Hps] & He).
        exists (entry :: pre), e, post. split; [reflexivity|].
        split; [|exact He]. exists (p :: ps). cbn. rewrite Hp, Hps. reflexivity.
      * injection H as ->. exists [], entry, rest.
        split; [reflexivity|]. split; [exists []; reflexivity|exact Hp].
    + intros (pre & e & post & Heq & [ps Hps] & He).
      destruct pre as [|e0 pre]; cbn in Heq; injection Heq as <- ->.
      * rewrite He. reflexivity.
      * cbn in Hps.
        destruct (decodeEntry entry) as [p|t']; [|discriminate].
        destruct (decodeEntries pre) as [qs|t''] eqn:Hq; [|discriminate].
        assert (Hrest : decodeEntries (pre ++ e :: post) = Threw t).
        { apply IH. exists pre, e, post. split; [reflexivity|].
          split; [exists qs; exact Hq|exact He]. }
        rewrite Hrest. reflexivity.
Qed.

(** X18: [pointsFromJson] is all or nothing.  It returns exactly when
    every entry decodes; otherwise it throws what the first entry that
    does not decode throws, however many other entries are good. *)
Theorem pointsFromJson_all_or_nothing :
  forall obj,
    ((exists r, pointsFromJson obj = Returned r) <->
     (forall entry, In entry (shares obj) ->
                    exists p, decodeEntry entry = Returned p)) /\
    (forall t,
       pointsFromJson obj = Threw t <->
       exists pre entry post,
         shares obj = pre ++ entry :: post /\
         (forall e, In e pre -> exists p, decodeEntry e = Returned p) /\
         decodeEntry entry = Threw t).
Proof.
  intros obj.
  assert (Hall : forall l,
            (exists ps, decodeEntries l = Returned ps) <->
            (forall e, In e l -> exists p, decodeEntry e = Returned p)).
  { intros l. split.
    - intros [ps Hps] e Hin. apply decodeEntries_Returned in Hps.
      induction Hps as [|e0 p l0 ps0 Hp _ IH]; [contradiction|].
      destruct Hin as [<-|Hin]; [exists p; exact Hp|apply IH; exact Hin].
    - induction l as [|e0 l IH]; intros H.
      + exists []. reflexivity.
      + destruct (H e0 (or_introl eq_refl)) as [p Hp].
        destruct IH as [ps Hps]; [intros e He; apply H; right; exact He|].
        exists (p :: ps). cbn. rewrite Hp, Hps. reflexivity. }
  unfold pointsFromJson. split.
  - rewrite <- Hall. split.
    + intros [r Hr].
      destruct (decodeEntries (shares obj)) as [ps|t]; [|discriminate].
      exists ps. reflexivity.
    + intros [ps ->]. eexists. reflexivity.
  - intros t. split.
    + intros H.
      destruct (decodeEntries (shares obj)) as [ps|t'] eqn:Hd; [discriminate|].
      injection H as ->. apply decodeEntries_Threw in Hd.
      destruct Hd as (pre & e & post & Heq & Hpre & He).
      exists pre, e, post. split; [exact Heq|]. split; [|exact He].
      apply Hall. exact Hpre.
    + intros (pre & e & post & Heq & Hpre & He).
      assert (Hd : decodeEntries (shares obj) = Threw t).
      { apply decodeEntries_Threw. exists pre, e, post.
        split; [exact Heq|]. split; [apply Hall; exact Hpre|exact He]. }
      rewrite Hd. reflexivity.
Qed.

Lemma Forall2_permutation {A B : Type} (R : A -> B -> Prop) (l l' : list A) :
  Permutation l l' ->
  forall ps, Forall2 R l ps ->
  exists ps', Forall2 R l' ps' /\ Permutation ps ps'.
Proof.
  induction 1 as [|a l l' Hperm IH|a b l|l l' l'' H1 IH1 H2 IH2]; intros ps H.
  - inversion H. exists []. split; constructor.
  - inversion H as [|? p ? qs Hp Hq]; subst.
    destruct (IH qs Hq) as (qs' & Hqs' & Hpq).
    exists (p :: qs'). split; constructor; assumption.
  - inversion H as [|? p ? qs Hp Hq]; subst.
    inversion Hq as [|? q ? rs Hq' Hr]; subst.
    exists (q :: p :: rs). split; [repeat constructor; assumption|].
    apply perm_swap.
  - destruct (IH1 ps H) as (ps' & Hps' & Hp1).
    destruct (IH2 ps' Hps') as (ps'' & Hps'' & Hp2).
    exists ps''. split; [exact Hps''|]. exact (perm_trans Hp1 Hp2).
Qed.

Lemma sorted_permutation_unique (l1 : list Point.t) :
  forall l2,
    StronglySorted ascendingX l1 -> StronglySorted ascendingX l2 ->
    Permutation l1 l2 -> distinctX l1 -> l1 = l2.
Proof.
  induction l1 as [|a r1 IH]; intros l2 S1 S2 Hperm Hd.
  - apply Permutation_nil in Hperm. subst. reflexivity.
  - destruct l2 as [|b r2];
      [apply Permutation_sym, Permutation_nil in Hperm; discriminate|].
    apply StronglySorted_inv in S1. destruct S1 as [S1 Ha].
    apply StronglySorted_inv in S2. destruct S2 as [S2 Hb].
    assert (Hba : Point.x b <= Point.x a).
    { assert (Hin : In a (b :: r2))
        by (apply (Permutation_in a Hperm); left; reflexivity).
      destruct Hin as [->|Hin]; [lia|].
      rewrite Forall_forall in Hb. apply (Hb a Hin). }
    assert (Hinb : In b (a :: r1))
      by (apply (Permutation_in b (Permutation_sym Hperm)); left; reflexivity).
    assert (Heq : a = b).
    { destruct Hinb as [|Hin]; [assumption|]. exfalso.
      rewrite Forall_forall in Ha. pose proof (Ha b Hin) as Hab.
      unfold ascendingX in Hab.
      unfold distinctX in Hd. cbn in Hd. inversion Hd as [|? ? Hnotin _]; subst.
      apply Hnotin. replace (Point.x a) with (Point.x b) by lia.
      apply in_map. exact Hin. }
    subst b. f_equal. apply IH; try assumption.
    + apply (Permutation_cons_inv Hperm).
    + unfold distinctX in *. cbn in Hd. inversion Hd. assumption.
Qed.

(** X19: The sort makes the result independent of the order of the
    entries: two objects with the same ["keys"] and the same entries in
    another order, decoding to pairwise-distinct [x], give the same
    points. *)
Theorem pointsFromJson_order_independent :
  forall obj obj' k points,
    keys obj = keys obj' ->
    Permutation (shares obj) (shares obj') ->
    pointsFromJson obj = Returned (k, points) ->
    distinctX points ->
    pointsFromJson obj' = Returned (k, points).
Proof.
  intros obj obj' k points Hkeys Hperm H Hd. unfold pointsFromJson in *.
  destruct (decodeEntries (shares obj)) as [ps|t] eqn:Hdec; [|discriminate].
  injection H as <- <-.
  apply decodeEntries_Returned in Hdec.
  destruct (Forall2_permutation _ _ _ Hperm ps Hdec) as (ps' & Hdec' & Hpp).
  apply decodeEntries_Returned in Hdec'. rewrite Hdec', <- Hkeys.
  f_equal. f_equal. symmetry.
  apply sorted_permutation_unique; try apply sortByX_sorted; [|exact Hd].
  apply (perm_trans (Permutation_sym (sortByX_permutation ps))).
  apply (perm_trans Hpp). apply sortByX_permutation.
Qed.

End IngestionProperties.

Lemma pointsFromJson_order_independent_witness :
  pointsFromJson decimalString decimalString
    (mkJsonObject (Keys.mk 3 2)
       [("3", Share.mk "10" "12"); ("1", Share.mk "2" "100");
        ("2", Share.mk "16" "a")]%string)
  = Returned (2, [Point.mk 1 4; Point.mk 2 10; Point.mk 3 12]).
Proof.
  apply (pointsFromJson_order_independent decimalString decimalString
           (mkJsonObject (Keys.mk 3 2)
              [("1", Share.mk "2" "100"); ("2", Share.mk "16" "a");
               ("3", Share.mk "10" "12")]%string)).
  - reflexivity.
  - cbn [shares]. apply Permutation_sym.
    apply (Permutation_cons_app
             [("1", Share.mk "2" "100"); ("2", Share.mk "16" "a")]%string []).
    apply Permutation_refl.
  - vm_compute. reflexivity.
  - unfold distinctX. cbn.
    repeat constructor; cbn; intuition discriminate.
Defined.

(** ** main, end to end *)

Lemma NoDup_firstn {A : Type} (m : nat) (l : list A) :
  NoDup l -> NoDup (firstn m l).
Proof.
  intros H. rewrite <- (firstn_skipn m l) in H.
  exact (NoDup_app_remove_r _ _ H).
Qed.

Lemma In_firstn {A : Type} (m : nat) (l : list A) (a : A) :
  In a (firstn m l) -> In a l.
Proof.
  intros H. rewrite <- (firstn_skipn m l). apply in_or_app. left. exact H.
Qed.

(** X20: End to end.  When the entries decode, in whatever order, to
    points of pairwise-distinct [x] on a polynomial with integer
    coefficients, and [k] is at least the number of coefficients and at
    most the number of points, [main] prints the report whose result line
    shows the constant term, and throws nothing. *)
Theorem main_recovers_constant_term :
  forall (BigInt_string Number_string : string -> option Z)
         obj coeffs entries,
    decodeEntries BigInt_string Number_string (shares obj)
      = Returned entries ->
    distinctX entries ->
    (forall p, In p entries -> Point.y p = polyEval coeffs (Point.x p)) ->
    Z.of_nat (List.length coeffs) <= Keys.k (keys obj)
      <= Z.of_nat (List.length entries) ->
    mainParsed BigInt_string Number_string obj =
      Returned
        [Stdout "--- Processing: Test Case ---";
         Stdout ("Polynomial degree m = k-1 = "
                 ++ showInteger (Keys.k (keys obj) - 1));
         Stdout ("Using " ++ showInteger (Keys.k (keys obj))
                 ++ " points for interpolation.");
         Stdout "";
         Stdout "--- RESULT ---";
         Stdout ("The constant term 'c' is: "
                 ++ showInteger (polyEval coeffs 0));
         Stdout "--------------"].
Proof.
  intros f g obj coeffs entries Hdec Hd Hon Hk.
  unfold mainParsed, pointsFromJson. rewrite Hdec.
  set (k := Keys.k (keys obj)) in *.
  set (points := sortByX entries).
  assert (Hperm : Permutation entries points) by apply sortByX_permutation.
  assert (Hlen : List.length points = List.length entries)
    by (symmetry; apply Permutation_length; exact Hperm).
  rewrite Hlen.
  destruct (Z.ltb_spec (Z.of_nat (List.length entries)) k) as [Hlt|_]; [lia|].
  assert (Hres : reconstructAtZero points k = Ok (polyEval coeffs 0)).
  { destruct (reconstructAtZero_outcome points k)
      as [(_ & s & Hn & Hval & Hres)|(Hnd & _)].
    - rewrite Hres. apply toBigIntExact_integer; [apply Hn|].
      rewrite Hval. rewrite slice0_firstn by lia.
      apply lagrangeSum_zero.
      + unfold distinctX. rewrite <- firstn_map. apply NoDup_firstn.
        exact (Permutation_NoDup (Permutation_map Point.x Hperm) Hd).
      + rewrite length_firstn. lia.
      + intros p Hin. apply Hon.
        apply (Permutation_in p (Permutation_sym Hperm)).
        exact (In_firstn _ _ _ Hin).
    - exfalso. apply Hnd. rewrite slice0_firstn by lia.
      unfold distinctX. rewrite <- firstn_map. apply NoDup_firstn.
      exact (Permutation_NoDup (Permutation_map Point.x Hperm) Hd). }
  rewrite Hres. reflexivity.
Qed.

Lemma main_recovers_constant_term_witness :
  mainParsed decimalString decimalString
    (mkJsonObject (Keys.mk 4 3)
       [("3", Share.mk "10" "32"); ("1", Share.mk "2" "1010");
        ("6", Share.mk "16" "5F"); ("2", Share.mk "10" "19")]%string)
  = Returned
      [Stdout "--- Processing: Test Case ---";
       Stdout "Polynomial degree m = k-1 = 2";
       Stdout "Using 3 points for interpolation.";
       Stdout "";
       Stdout "--- RESULT ---";
       Stdout "The constant term 'c' is: 5";
       Stdout "--------------"].
Proof.
  apply (main_recovers_constant_term decimalString decimalString
           (mkJsonObject (Keys.mk 4 3)
              [("3", Share.mk "10" "32"); ("1", Share.mk "2" "1010");
               ("6", Share.mk "16" "5F"); ("2", Share.mk "10" "19")]%string)
           [5; 3; 2]
           [Point.mk 3 32; Point.mk 1 10; Point.mk 6 95; Point.mk 2 19]).
  - vm_compute. reflexivity.
  - unfold distinctX. cbn.
    repeat constructor; cbn; intuition discriminate.
  - cbn. intros p [H|[H|[H|[H|[]]]]]; subst p; reflexivity.
  - cbn. lia.
Defined.

(** X21: Two entries that decode to the same [x] (the keys ["1"] and
    ["01"], say) end a run that uses every point: [main] prints nothing
    and the zero-denominator error escapes. *)
Theorem main_duplicate_x_throws :
  forall (BigInt_string Number_string : string -> option Z) obj entries,
    decodeEntries BigInt_string Number_string (shares obj)
      = Returned entries ->
    ~ distinctX entries ->
    Keys.k (keys obj) = Z.of_nat (List.length entries) ->
    mainParsed BigInt_string Number_string obj
    = Threw (CoreError ZeroDenominator).
Proof.
  intros f g obj entries Hdec Hnd Hk.
  unfold mainParsed, pointsFromJson. rewrite Hdec, Hk.
  assert (Hperm : Permutation entries (sortByX entries))
    by apply sortByX_permutation.
  rewrite <- (Permutation_length Hperm).
  rewrite Z.ltb_irrefl.
  destruct (reconstructAtZero_outcome (sortByX entries)
              (Z.of_nat (List.length entries)))
    as [(Hd & _)|(_ & Hres)].
  - exfalso. apply Hnd.
    rewrite (Permutation_length Hperm), slice0_all in Hd.
    unfold distinctX in *.
    exact (Permutation_NoDup
             (Permutation_map Point.x (Permutation_sym Hperm)) Hd).
  - rewrite Hres. reflexivity.
Qed.

Lemma main_duplicate_x_throws_witness :
  mainParsed decimalString decimalString
    (mkJsonObject (Keys.mk 3 3)
       [("1", Share.mk "10" "4"); ("2", Share.mk "10" "7");
        ("01", Share.mk "10" "4")]%string)
  = Threw (CoreError ZeroDenominator).
Proof.
  apply (main_duplicate_x_throws decimalString decimalString
           (mkJsonObject (Keys.mk 3 3)
              [("1", Share.mk "10" "4"); ("2", Share.mk "10" "7");
               ("01", Share.mk "10" "4")]%string)
           [Point.mk 1 4; Point.mk 2 7; Point.mk 1 4]).
  - vm_compute. reflexivity.
  - unfold distinctX. cbn. intros H.
    inversion H as [|? ? Hnotin _]; subst. apply Hnotin. cbn. auto.
  - reflexivity.
Defined.


